(** * The location cache of the edge controller

    A model of [cloud/pkg/edgecontroller/manager/location.go]: the
    [LocationCache] with its four [sync.Map]s (edge nodes, config map to
    nodes, secret to nodes, endpoints) and the extraction of the config maps
    and secrets a pod depends on.

    Go values that are references keep their reference here: a slice is a
    header (pointer, length, capacity) into a heap of backing arrays, a map
    and a pointer are locations.  The cache is a record of finite maps from
    string keys to interface values, and the methods of [LocationCache] are
    computations in a state monad over the heap and the cache. *)

From stdpp Require Import gmap strings list fin_maps.

Open Scope string_scope.
Open Scope list_scope.
Open Scope nat_scope.

(** ** Go references *)

Definition loc := positive.

(** A slice header.  No function of the cache reslices, so the pointer is
    always the start of the backing array; [s_ptr = None] is the nil slice. *)
Record slice := Slice { s_ptr : option loc; s_len : nat; s_cap : nat }.

Definition nil_slice : slice := Slice None 0 0.

Definition is_nil (s : slice) : bool :=
  match s_ptr s with None => true | Some _ => false end.

#[global] Instance slice_eq_dec : EqDecision slice.
Proof. solve_decision. Defined.

(** A map value (nil or a location) and a pointer (nil or a location). *)
Definition mapref := option loc.
Definition pointer := option loc.

(** [fmt.Sprintf("%s/%s", namespace, name)] *)
Definition Sprintf (namespace name : string) : string :=
  namespace +:+ "/" +:+ name.

(** ** The API objects the cache reads (package [v1])

    The pod is only read, never stored, so what hangs off its spec is kept by
    value: a pointer field is an [option], a slice field a [list].  Fields no
    function of the cache looks at are left out of the pod spec. *)

Module v1.

(** [time.Time], which [metav1.Time] wraps: the wall and monotonic readings
    and the location.  The location is a pointer in Go; it is kept by value,
    [None] for nil, since [reflect.DeepEqual] compares what it points to. *)
Record zone := { zone_name : string; zone_offset : Z; zone_isDST : bool }.

Record zoneTrans := {
  zt_when : Z;
  zt_index : Z;
  zt_isstd : bool;
  zt_isutc : bool }.

Record Location := {
  loc_name : string;
  loc_zone : option (list zone);
  loc_tx : option (list zoneTrans);
  loc_extend : string;
  loc_cacheStart : Z;
  loc_cacheEnd : Z;
  loc_cacheZone : option zone }.

Record Time := { t_wall : Z; t_ext : Z; t_loc : option Location }.

(** [metav1.Status] with its details, which [Initializers] carries. *)
Record StatusCause := { sc_Type : string; sc_Message : string; sc_Field : string }.

Record StatusDetails := {
  sd_Name : string;
  sd_Group : string;
  sd_Kind : string;
  sd_UID : string;
  sd_Causes : option (list StatusCause);
  sd_RetryAfterSeconds : Z }.

Record Status := {
  st_Kind : string;
  st_APIVersion : string;
  st_SelfLink : string;
  st_ResourceVersion : string;
  st_Continue : string;
  st_RemainingItemCount : option Z;
  st_Status : string;
  st_Message : string;
  st_Reason : string;
  st_Details : option StatusDetails;
  st_Code : Z }.

(** [metav1.Initializers]: the pending initializers by name and the result.
    Releases of the API after 1.15 have no such field; there it is nil. *)
Record Initializers := {
  in_Pending : option (list string);
  in_Result : option Status }.

(** [metav1.ManagedFieldsEntry]; the field set is its serialized form, a
    pointer to a struct with one byte slice. *)
Record FieldsV1 := { Raw : option (list Z) }.

Record ManagedFieldsEntry := {
  mf_Manager : string;
  mf_Operation : string;
  mf_APIVersion : string;
  mf_Time : option Time;
  mf_FieldsType : string;
  mf_FieldsV1 : option FieldsV1;
  mf_Subresource : string }.

Record OwnerReference := {
  or_APIVersion : string;
  or_Kind : string;
  or_Name : string;
  or_UID : string;
  or_Controller : option bool;
  or_BlockOwnerDeletion : option bool }.

(** [metav1.ObjectMeta].  Labels and annotations are Go maps, owner
    references, finalizers and managed fields are slices, the deletion
    fields pointers: copying the struct copies the references, not what they
    refer to.  The initializers, a pointer, are kept by value. *)
Record ObjectMeta := {
  Name : string;
  GenerateName : string;
  Namespace : string;
  SelfLink : string;
  UID : string;
  ResourceVersion : string;
  Generation : Z;
  CreationTimestamp : Time;
  DeletionTimestamp : pointer;
  DeletionGracePeriodSeconds : pointer;
  Labels : mapref;
  Annotations : mapref;
  OwnerReferences : slice;
  Initializers_ : option Initializers;
  Finalizers : slice;
  ClusterName : string;
  ManagedFields : slice }.

Record LocalObjectReference := { lor_Name : string }.

Record ConfigMapVolumeSource := { cmvs_Name : string }.
Record SecretVolumeSource := { svs_SecretName : string }.
Record ConfigMapProjection := { cmp_Name : string }.
Record SecretProjection := { sp_Name : string }.

Record VolumeProjection := {
  vp_Secret : option SecretProjection;
  vp_ConfigMap : option ConfigMapProjection }.

Record ProjectedVolumeSource := { pvs_Sources : list VolumeProjection }.

Record Volume := {
  vol_Name : string;
  vol_Secret : option SecretVolumeSource;
  vol_ConfigMap : option ConfigMapVolumeSource;
  vol_Projected : option ProjectedVolumeSource }.

Record ConfigMapEnvSource := { cmes_Name : string }.
Record SecretEnvSource := { ses_Name : string }.

Record EnvFromSource := {
  efs_ConfigMapRef : option ConfigMapEnvSource;
  efs_SecretRef : option SecretEnvSource }.

Record ConfigMapKeySelector := { cmks_Name : string; cmks_Key : string }.
Record SecretKeySelector := { sks_Name : string; sks_Key : string }.

Record EnvVarSource := {
  evs_ConfigMapKeyRef : option ConfigMapKeySelector;
  evs_SecretKeyRef : option SecretKeySelector }.

Record EnvVar := {
  ev_Name : string;
  ev_Value : string;
  ev_ValueFrom : option EnvVarSource }.

Record Container := {
  c_Name : string;
  c_EnvFrom : list EnvFromSource;
  c_Env : list EnvVar }.

Record PodSpec := {
  Volumes : list Volume;
  Containers : list Container;
  ImagePullSecrets : list LocalObjectReference;
  NodeName : string }.

Record Pod := { pod_ObjectMeta : ObjectMeta; Spec : PodSpec }.

(** Endpoints.  The subsets are a slice; what is inside one subset is kept
    by value (no function of the cache reaches below the subsets slice). *)
Record ObjectReference := {
  oref_Kind : string;
  oref_Namespace : string;
  oref_Name : string;
  oref_UID : string;
  oref_APIVersion : string;
  oref_ResourceVersion : string;
  oref_FieldPath : string }.

Record EndpointAddress := {
  ea_IP : string;
  ea_Hostname : string;
  ea_NodeName : option string;
  ea_TargetRef : option ObjectReference }.

Record EndpointPort := {
  ep_Name : string;
  ep_Port : Z;
  ep_Protocol : string;
  ep_AppProtocol : option string }.

Record EndpointSubset := {
  es_Addresses : option (list EndpointAddress);
  es_NotReadyAddresses : option (list EndpointAddress);
  es_Ports : option (list EndpointPort) }.

Record Endpoints := { ObjectMeta_ : ObjectMeta; Subsets : slice }.

#[global] Instance zone_eq_dec : EqDecision zone.
Proof. solve_decision. Defined.
#[global] Instance zoneTrans_eq_dec : EqDecision zoneTrans.
Proof. solve_decision. Defined.
#[global] Instance Location_eq_dec : EqDecision Location.
Proof. solve_decision. Defined.
#[global] Instance Time_eq_dec : EqDecision Time.
Proof. solve_decision. Defined.
#[global] Instance Time_inhabited : Inhabited Time :=
  populate {| t_wall := 0; t_ext := 0; t_loc := None |}.
#[global] Instance StatusCause_eq_dec : EqDecision StatusCause.
Proof. solve_decision. Defined.
#[global] Instance StatusDetails_eq_dec : EqDecision StatusDetails.
Proof. solve_decision. Defined.
#[global] Instance Status_eq_dec : EqDecision Status.
Proof. solve_decision. Defined.
#[global] Instance Initializers_eq_dec : EqDecision Initializers.
Proof. solve_decision. Defined.
#[global] Instance FieldsV1_eq_dec : EqDecision FieldsV1.
Proof. solve_decision. Defined.
#[global] Instance ManagedFieldsEntry_eq_dec : EqDecision ManagedFieldsEntry.
Proof. solve_decision. Defined.
#[global] Instance OwnerReference_eq_dec : EqDecision OwnerReference.
Proof. solve_decision. Defined.
#[global] Instance ObjectMeta_eq_dec : EqDecision ObjectMeta.
Proof. solve_decision. Defined.
#[global] Instance ObjectReference_eq_dec : EqDecision ObjectReference.
Proof. solve_decision. Defined.
#[global] Instance EndpointAddress_eq_dec : EqDecision EndpointAddress.
Proof. solve_decision. Defined.
#[global] Instance EndpointPort_eq_dec : EqDecision EndpointPort.
Proof. solve_decision. Defined.
#[global] Instance EndpointSubset_eq_dec : EqDecision EndpointSubset.
Proof. solve_decision. Defined.
#[global] Instance Endpoints_eq_dec : EqDecision Endpoints.
Proof. solve_decision. Defined.

End v1.

(** ** PodConfigMapsAndSecrets

    The two results are local slices grown by [append] and only read by the
    caller, so they are lists here; each loop of the source is a left fold
    over the pair (configMaps, secrets). *)

Definition names : Type := list string * list string.

Definition fromSource (acc : names) (source : v1.VolumeProjection) : names :=
  match v1.vp_ConfigMap source with
  | Some c => (acc.1 ++ [v1.cmp_Name c], acc.2)
  | None =>
      match v1.vp_Secret source with
      | Some s => (acc.1, acc.2 ++ [v1.sp_Name s])
      | None => acc
      end
  end.

Definition fromVolume (acc : names) (v : v1.Volume) : names :=
  let acc :=
    match v1.vol_ConfigMap v with
    | Some c => (acc.1 ++ [v1.cmvs_Name c], acc.2)
    | None => acc
    end in
  let acc :=
    match v1.vol_Secret v with
    | Some s => (acc.1, acc.2 ++ [v1.svs_SecretName s])
    | None => acc
    end in
  match v1.vol_Projected v with
  | Some p => foldl fromSource acc (v1.pvs_Sources p)
  | None => acc
  end.

Definition fromEnvFrom (acc : names) (ef : v1.EnvFromSource) : names :=
  let acc :=
    match v1.efs_ConfigMapRef ef with
    | Some c => (acc.1 ++ [v1.cmes_Name c], acc.2)
    | None => acc
    end in
  match v1.efs_SecretRef ef with
  | Some s => (acc.1, acc.2 ++ [v1.ses_Name s])
  | None => acc
  end.

Definition fromEnv (acc : names) (e : v1.EnvVar) : names :=
  match v1.ev_ValueFrom e with
  | None => acc
  | Some vf =>
      match v1.evs_ConfigMapKeyRef vf with
      | Some c => (acc.1 ++ [v1.cmks_Name c], acc.2)
      | None =>
          match v1.evs_SecretKeyRef vf with
          | Some s => (acc.1, acc.2 ++ [v1.sks_Name s])
          | None => acc
          end
      end
  end.

Definition fromContainer (acc : names) (s : v1.Container) : names :=
  foldl fromEnv (foldl fromEnvFrom acc (v1.c_EnvFrom s)) (v1.c_Env s).

Definition fromImagePullSecret (acc : names) (s : v1.LocalObjectReference) : names :=
  (acc.1, acc.2 ++ [v1.lor_Name s]).

Definition PodConfigMapsAndSecrets (pod : v1.Pod) : names :=
  let acc := foldl fromVolume ([], []) (v1.Volumes (v1.Spec pod)) in
  let acc := foldl fromContainer acc (v1.Containers (v1.Spec pod)) in
  foldl fromImagePullSecret acc (v1.ImagePullSecrets (v1.Spec pod)).

(** ** The heap

    One store per kind of referent: backing arrays of [[]string] (node lists,
    finalizers), of endpoint subsets, of owner references and of managed
    fields, the [map[string]string] objects, and the targets of pointers to
    integers and to times. *)

Record Heap := {
  h_strings : gmap loc (list string);
  h_maps : gmap loc (gmap string string);
  h_subsets : gmap loc (list v1.EndpointSubset);
  h_owners : gmap loc (list v1.OwnerReference);
  h_managed : gmap loc (list v1.ManagedFieldsEntry);
  h_ints : gmap loc Z;
  h_times : gmap loc v1.Time }.

Definition set_h_strings (a : gmap loc (list string)) (h : Heap) : Heap :=
  {| h_strings := a; h_maps := h_maps h; h_subsets := h_subsets h;
     h_owners := h_owners h; h_managed := h_managed h; h_ints := h_ints h;
     h_times := h_times h |}.

Definition set_h_maps (a : gmap loc (gmap string string)) (h : Heap) : Heap :=
  {| h_strings := h_strings h; h_maps := a; h_subsets := h_subsets h;
     h_owners := h_owners h; h_managed := h_managed h; h_ints := h_ints h;
     h_times := h_times h |}.

Definition set_h_subsets (a : gmap loc (list v1.EndpointSubset)) (h : Heap) : Heap :=
  {| h_strings := h_strings h; h_maps := h_maps h; h_subsets := a;
     h_owners := h_owners h; h_managed := h_managed h; h_ints := h_ints h;
     h_times := h_times h |}.

Definition empty_heap : Heap :=
  {| h_strings := ∅; h_maps := ∅; h_subsets := ∅; h_owners := ∅;
     h_managed := ∅; h_ints := ∅; h_times := ∅ |}.

(** The elements of a slice: the first [s_len] cells of its backing array. *)
Definition elems {A} (arrs : gmap loc (list A)) (s : slice) : list A :=
  match s_ptr s with
  | None => []
  | Some l => take (s_len s) (arrs !!! l)
  end.

(** A slice of a running program points to an allocated array of [s_cap]
    cells and has [s_len ≤ s_cap]; the nil slice has length and capacity 0. *)
Definition slice_wf {A} (arrs : gmap loc (list A)) (s : slice) : Prop :=
  match s_ptr s with
  | None => s_len s = 0 ∧ s_cap s = 0
  | Some l => s_len s ≤ s_cap s ∧ ∃ a, arrs !! l = Some a ∧ length a = s_cap s
  end.

(** ** Interface values and the cache

    A [sync.Map] holds [interface{}] values; the cache stores three dynamic
    types in them: [struct{}], [[]string] and [v1.Endpoints]. *)

Inductive any :=
| AnyStruct
| AnyStrings (nodes : slice)
| AnyEndpoints (eps : v1.Endpoints).

#[global] Instance any_eq_dec : EqDecision any.
Proof. solve_decision. Defined.

Record LocationCache := {
  EdgeNodes : gmap string any;
  configMapNode : gmap string any;
  secretNode : gmap string any;
  endpoints : gmap string any }.

Definition empty_cache : LocationCache :=
  {| EdgeNodes := ∅; configMapNode := ∅; secretNode := ∅; endpoints := ∅ |}.

Record State := { heap : Heap; lc : LocationCache }.

Definition initial (h : Heap) : State := {| heap := h; lc := empty_cache |}.

(** The state monad the methods run in. *)
Definition M (A : Type) : Type := State → A * State.

#[global] Instance M_ret : MRet M := λ A (x : A) st, (x, st).
#[global] Instance M_bind : MBind M :=
  λ A B (f : A → M B) (c : M A) st, let '(x, st') := c st in f x st'.

Definition get_heap : M Heap := λ st, (heap st, st).
Definition put_heap (h : Heap) : M unit := λ st, (tt, {| heap := h; lc := lc st |}).

(** [for _, x := range xs { body }] *)
Fixpoint range {A} (xs : list A) (body : A → M unit) : M unit :=
  match xs with
  | [] => mret tt
  | x :: xs => _ ← body x; range xs body
  end.

Definition exec {A} (c : M A) (st : State) : State := (c st).2.
Definition eval {A} (c : M A) (st : State) : A := (c st).1.

(** One of the four [sync.Map] fields of the cache. *)
Record field := {
  f_get : LocationCache → gmap string any;
  f_set : gmap string any → LocationCache → LocationCache }.

Definition EdgeNodes_f : field :=
  {| f_get := EdgeNodes;
     f_set m c := {| EdgeNodes := m; configMapNode := configMapNode c;
                     secretNode := secretNode c; endpoints := endpoints c |} |}.
Definition configMapNode_f : field :=
  {| f_get := configMapNode;
     f_set m c := {| EdgeNodes := EdgeNodes c; configMapNode := m;
                     secretNode := secretNode c; endpoints := endpoints c |} |}.
Definition secretNode_f : field :=
  {| f_get := secretNode;
     f_set m c := {| EdgeNodes := EdgeNodes c; configMapNode := configMapNode c;
                     secretNode := m; endpoints := endpoints c |} |}.
Definition endpoints_f : field :=
  {| f_get := endpoints;
     f_set m c := {| EdgeNodes := EdgeNodes c; configMapNode := configMapNode c;
                     secretNode := secretNode c; endpoints := m |} |}.

(** [sync.Map.Load], [Store] and [Delete]; each is one atomic step. *)
Definition Load (f : field) (key : string) : M (option any) :=
  λ st, (f_get f (lc st) !! key, st).

Definition Store (f : field) (key : string) (value : any) : M unit :=
  λ st, (tt, {| heap := heap st;
                lc := f_set f (<[key := value]> (f_get f (lc st))) (lc st) |}).

Definition Delete (f : field) (key : string) : M unit :=
  λ st, (tt, {| heap := heap st;
                lc := f_set f (delete key (f_get f (lc st))) (lc st) |}).

(** ** The methods of [LocationCache] *)

Section LocationCache.

(** When [append] finds no room, the Go runtime allocates a new array; how
    much larger than needed is its choice.  [growslice oldcap needed] is
    that choice, and the new capacity is never below what is needed. *)
Variable growslice : nat → nat → nat.

Definition alloc_strings (a : list string) : M loc :=
  λ st,
    let l := fresh (dom (h_strings (heap st))) in
    (l, {| heap := set_h_strings (<[l := a]> (h_strings (heap st))) (heap st);
           lc := lc st |}).

(** [[]string{x}] *)
Definition literal (x : string) : M slice :=
  l ← alloc_strings [x]; mret (Slice (Some l) 1 1).

Definition grow (s : slice) (x : string) : M slice :=
  h ← get_heap;
  let c := S (s_len s) `max` growslice (s_cap s) (S (s_len s)) in
  l ← alloc_strings (elems (h_strings h) s ++ x :: replicate (c - S (s_len s)) "");
  mret (Slice (Some l) (S (s_len s)) c).

(** [append(s, x)]: in place when the backing array has room, into a new
    array otherwise. *)
Definition append (s : slice) (x : string) : M slice :=
  match s_ptr s with
  | Some l =>
      if decide (s_len s < s_cap s) then
        h ← get_heap;
        _ ← put_heap (set_h_strings
               (<[l := <[s_len s := x]> (h_strings h !!! l)]> (h_strings h)) h);
        mret (Slice (Some l) (S (s_len s)) (s_cap s))
      else grow s x
  | None => grow s x
  end.

(** The loop of [newNodes]: true when some element equals [node]. *)
Fixpoint contains (nodes : list string) (node : string) : bool :=
  match nodes with
  | [] => false
  | n :: nodes => if decide (n = node) then true else contains nodes node
  end.

Definition newNodes (oldNodes : slice) (node : string) : M slice :=
  h ← get_heap;
  if contains (elems (h_strings h) oldNodes) node then mret oldNodes
  else append oldNodes node.

(** [nodes, _ := value.([]string)] *)
Definition as_strings (value : any) : slice :=
  match value with
  | AnyStrings nodes => nodes
  | _ => nil_slice
  end.

(** The body of the two loops of [AddOrUpdatePod], which the source writes
    once for [configMapNode] and once for [secretNode]: load the list,
    then ([storeNodes]) build the new list and store it. *)
Definition storeNodes (f : field) (pod : v1.Pod) (name : string)
    (value : option any) : M unit :=
  nodes ← match value with
          | Some value => newNodes (as_strings value) (v1.NodeName (v1.Spec pod))
          | None => literal (v1.NodeName (v1.Spec pod))
          end;
  Store f (Sprintf (v1.Namespace (v1.pod_ObjectMeta pod)) name) (AnyStrings nodes).

Definition addNode (f : field) (pod : v1.Pod) (name : string) : M unit :=
  value ← Load f (Sprintf (v1.Namespace (v1.pod_ObjectMeta pod)) name);
  storeNodes f pod name value.

Definition AddOrUpdatePod (pod : v1.Pod) : M unit :=
  let '(configMaps, secrets) := PodConfigMapsAndSecrets pod in
  _ ← range configMaps (addNode configMapNode_f pod);
  range secrets (addNode secretNode_f pod).

(** The body of [ConfigMapNodes] and of [SecretNodes]. *)
Definition nodesOf (f : field) (namespace name : string) : M slice :=
  value ← Load f (Sprintf namespace name);
  mret (match value with
        | Some (AnyStrings nodes) => nodes
        | _ => nil_slice
        end).

Definition ConfigMapNodes (namespace name : string) : M slice :=
  nodesOf configMapNode_f namespace name.

Definition SecretNodes (namespace name : string) : M slice :=
  nodesOf secretNode_f namespace name.

Definition IsEdgeNode (nodeName : string) : M bool :=
  value ← Load EdgeNodes_f nodeName;
  mret (match value with Some _ => true | None => false end).

Definition UpdateEdgeNode (nodeName : string) : M unit :=
  Store EdgeNodes_f nodeName AnyStruct.

Definition DeleteConfigMap (namespace name : string) : M unit :=
  Delete configMapNode_f (Sprintf namespace name).

Definition DeleteSecret (namespace name : string) : M unit :=
  Delete secretNode_f (Sprintf namespace name).

Definition DeleteNode (nodeName : string) : M unit :=
  Delete EdgeNodes_f nodeName.

Definition endpointsKey (e : v1.Endpoints) : string :=
  Sprintf (v1.Namespace (v1.ObjectMeta_ e)) (v1.Name (v1.ObjectMeta_ e)).

Definition AddOrUpdateEndpoints (e : v1.Endpoints) : M unit :=
  Store endpoints_f (endpointsKey e) (AnyEndpoints e).

Definition DeleteEndpoints (e : v1.Endpoints) : M unit :=
  Delete endpoints_f (endpointsKey e).

(** *** reflect.DeepEqual, at the types [IsEndpointsUpdated] uses it

    Slices: both nil or both not, the same length, and the same first
    element's address or deeply equal elements.  Maps: both nil or both
    not, the same number of entries, and the same map object or every key
    of the first bound to an equal value in the second.  Pointers: the same
    address, or both not nil with equal targets.  Structs: field by field;
    what the model keeps by value (a time with its location, a subset, an
    owner reference, a managed-fields entry, the initializers) is deeply
    equal exactly when it is equal. *)

Definition DeepEqual_slice {A} `{EqDecision A}
    (arrs : gmap loc (list A)) (x y : slice) : bool :=
  if negb (bool_decide (is_nil x = is_nil y)) then false
  else if negb (bool_decide (s_len x = s_len y)) then false
  else if bool_decide (s_ptr x = s_ptr y) then true
  else bool_decide (elems arrs x = elems arrs y).

Definition DeepEqual_map (h : Heap) (x y : mapref) : bool :=
  match x, y with
  | None, None => true
  | Some a, Some b =>
      let m1 := h_maps h !!! a in
      let m2 := h_maps h !!! b in
      if negb (bool_decide (size m1 = size m2)) then false
      else if bool_decide (a = b) then true
      else bool_decide (map_Forall (λ k v, m2 !! k = Some v) m1)
  | _, _ => false
  end.

Definition DeepEqual_pointer {A} `{EqDecision A} `{Inhabited A}
    (cells : gmap loc A) (x y : pointer) : bool :=
  match x, y with
  | None, None => true
  | Some a, Some b =>
      if bool_decide (a = b) then true
      else bool_decide (cells !!! a = cells !!! b)
  | _, _ => false
  end.

Definition DeepEqual_ObjectMeta (h : Heap) (x y : v1.ObjectMeta) : bool :=
  bool_decide (v1.Name x = v1.Name y)
  && bool_decide (v1.GenerateName x = v1.GenerateName y)
  && bool_decide (v1.Namespace x = v1.Namespace y)
  && bool_decide (v1.SelfLink x = v1.SelfLink y)
  && bool_decide (v1.UID x = v1.UID y)
  && bool_decide (v1.ResourceVersion x = v1.ResourceVersion y)
  && bool_decide (v1.Generation x = v1.Generation y)
  && bool_decide (v1.CreationTimestamp x = v1.CreationTimestamp y)
  && DeepEqual_pointer (h_times h) (v1.DeletionTimestamp x) (v1.DeletionTimestamp y)
  && DeepEqual_pointer (h_ints h) (v1.DeletionGracePeriodSeconds x)
                                  (v1.DeletionGracePeriodSeconds y)
  && DeepEqual_map h (v1.Labels x) (v1.Labels y)
  && DeepEqual_map h (v1.Annotations x) (v1.Annotations y)
  && DeepEqual_slice (h_owners h) (v1.OwnerReferences x) (v1.OwnerReferences y)
  && bool_decide (v1.Initializers_ x = v1.Initializers_ y)
  && DeepEqual_slice (h_strings h) (v1.Finalizers x) (v1.Finalizers y)
  && bool_decide (v1.ClusterName x = v1.ClusterName y)
  && DeepEqual_slice (h_managed h) (v1.ManagedFields x) (v1.ManagedFields y).

(** The three assignments to the local copy [old]. *)
Definition maskChurn (old new : v1.ObjectMeta) : v1.ObjectMeta :=
  {| v1.Name := v1.Name old;
     v1.GenerateName := v1.GenerateName old;
     v1.Namespace := v1.Namespace old;
     v1.SelfLink := v1.SelfLink old;
     v1.UID := v1.UID old;
     v1.ResourceVersion := v1.ResourceVersion new;
     v1.Generation := v1.Generation new;
     v1.CreationTimestamp := v1.CreationTimestamp old;
     v1.DeletionTimestamp := v1.DeletionTimestamp old;
     v1.DeletionGracePeriodSeconds := v1.DeletionGracePeriodSeconds old;
     v1.Labels := v1.Labels old;
     v1.Annotations := v1.Annotations new;
     v1.OwnerReferences := v1.OwnerReferences old;
     v1.Initializers_ := v1.Initializers_ old;
     v1.Finalizers := v1.Finalizers old;
     v1.ClusterName := v1.ClusterName old;
     v1.ManagedFields := v1.ManagedFields old |}.

Definition IsEndpointsUpdated (new : v1.Endpoints) : M bool :=
  eps ← Load endpoints_f (endpointsKey new);
  match eps with
  | None => mret true
  | Some eps =>
      match eps with
      | AnyEndpoints old =>
          let old_ObjectMeta := maskChurn (v1.ObjectMeta_ old) (v1.ObjectMeta_ new) in
          h ← get_heap;
          mret (negb (DeepEqual_ObjectMeta h old_ObjectMeta (v1.ObjectMeta_ new))
                || negb (DeepEqual_slice (h_subsets h) (v1.Subsets old) (v1.Subsets new)))
      | _ => mret true
      end
  end.

(** [sync.Map.Range] visits the entries in no particular order; the order
    of [map_to_list] stands for it. *)
Definition GetAllEndpoints : M (list v1.Endpoints) :=
  λ st,
    (omap (λ kv : string * any,
             match kv.2 with AnyEndpoints eps => Some eps | _ => None end)
          (map_to_list (endpoints (lc st))), st).

End LocationCache.

(** ** Calls, callers and threads *)

(** The two reverse indices. *)
Inductive index := ConfigMapIndex | SecretIndex.

#[global] Instance index_eq_dec : EqDecision index.
Proof. solve_decision. Defined.

Definition index_field (i : index) : field :=
  match i with ConfigMapIndex => configMapNode_f | SecretIndex => secretNode_f end.

Definition table (i : index) (c : LocationCache) : gmap string any :=
  f_get (index_field i) c.

(** What a reference holds, read off the heap: [None] is nil. *)
Definition content_slice {A} (arrs : gmap loc (list A)) (s : slice) : option (list A) :=
  match s_ptr s with None => None | Some _ => Some (elems arrs s) end.

Definition content_map (h : Heap) (r : mapref) : option (gmap string string) :=
  (λ l, h_maps h !!! l) <$> r.

Definition content_pointer {A} `{Inhabited A} (cells : gmap loc A) (p : pointer)
    : option A :=
  (λ l, cells !!! l) <$> p.

(** The whole value of an object's metadata, and of an endpoints object. *)
Definition content_ObjectMeta (h : Heap) (m : v1.ObjectMeta) :=
  (v1.Name m, v1.GenerateName m, v1.Namespace m, v1.SelfLink m, v1.UID m,
   v1.ResourceVersion m, v1.Generation m, v1.CreationTimestamp m,
   content_pointer (h_times h) (v1.DeletionTimestamp m),
   content_pointer (h_ints h) (v1.DeletionGracePeriodSeconds m),
   content_map h (v1.Labels m), content_map h (v1.Annotations m),
   content_slice (h_owners h) (v1.OwnerReferences m),
   v1.Initializers_ m,
   content_slice (h_strings h) (v1.Finalizers m),
   v1.ClusterName m,
   content_slice (h_managed h) (v1.ManagedFields m)).

Definition content_Endpoints (h : Heap) (e : v1.Endpoints) :=
  (content_ObjectMeta h (v1.ObjectMeta_ e),
   content_slice (h_subsets h) (v1.Subsets e)).

(** The metadata with the resource version, the generation and the
    annotations blanked. *)
Definition withoutChurn (m : v1.ObjectMeta) : v1.ObjectMeta :=
  {| v1.Name := v1.Name m;
     v1.GenerateName := v1.GenerateName m;
     v1.Namespace := v1.Namespace m;
     v1.SelfLink := v1.SelfLink m;
     v1.UID := v1.UID m;
     v1.ResourceVersion := "";
     v1.Generation := 0%Z;
     v1.CreationTimestamp := v1.CreationTimestamp m;
     v1.DeletionTimestamp := v1.DeletionTimestamp m;
     v1.DeletionGracePeriodSeconds := v1.DeletionGracePeriodSeconds m;
     v1.Labels := v1.Labels m;
     v1.Annotations := None;
     v1.OwnerReferences := v1.OwnerReferences m;
     v1.Initializers_ := v1.Initializers_ m;
     v1.Finalizers := v1.Finalizers m;
     v1.ClusterName := v1.ClusterName m;
     v1.ManagedFields := v1.ManagedFields m |}.

(** The slices of an endpoints object are well formed in a heap. *)
Definition Endpoints_wf (h : Heap) (e : v1.Endpoints) : Prop :=
  slice_wf (h_owners h) (v1.OwnerReferences (v1.ObjectMeta_ e))
  ∧ slice_wf (h_strings h) (v1.Finalizers (v1.ObjectMeta_ e))
  ∧ slice_wf (h_managed h) (v1.ManagedFields (v1.ObjectMeta_ e))
  ∧ slice_wf (h_subsets h) (v1.Subsets e).

(** The snapshot the cache holds for a key, as a value. *)
Definition snapshot (st : State) (key : string) :=
  match endpoints (lc st) !! key with
  | Some (AnyEndpoints e) => Some (content_Endpoints (heap st) e)
  | _ => None
  end.

(** The state-changing methods, as the calls a controller makes. *)
Inductive call :=
| CallAddOrUpdatePod (pod : v1.Pod)
| CallDeleteConfigMap (namespace name : string)
| CallDeleteSecret (namespace name : string)
| CallUpdateEdgeNode (nodeName : string)
| CallDeleteNode (nodeName : string)
| CallAddOrUpdateEndpoints (e : v1.Endpoints)
| CallDeleteEndpoints (e : v1.Endpoints).


(** What a caller can do to an endpoints object [e] it holds: assign to a
    field of the struct, or write through one of its references. *)
Inductive mutation :=
| SetObjectMeta (m : v1.ObjectMeta)
| SetSubsets (s : slice)
| PutLabel (k v : string)
| PutAnnotation (k v : string)
| PutSubset (i : nat) (v : v1.EndpointSubset).

Definition put_map (r : mapref) (k v : string) (st : State) : option State :=
  match r with
  | Some l =>
      Some {| heap := set_h_maps
                (<[l := <[k := v]> (h_maps (heap st) !!! l)]> (h_maps (heap st)))
                (heap st);
              lc := lc st |}
  | None => None
  end.

(** [None] is a panic: a write to a nil map or an index out of range. *)
Definition mutate (mu : mutation) (e : v1.Endpoints) (st : State)
    : option (v1.Endpoints * State) :=
  match mu with
  | SetObjectMeta m =>
      Some ({| v1.ObjectMeta_ := m; v1.Subsets := v1.Subsets e |}, st)
  | SetSubsets s =>
      Some ({| v1.ObjectMeta_ := v1.ObjectMeta_ e; v1.Subsets := s |}, st)
  | PutLabel k v =>
      st' ← put_map (v1.Labels (v1.ObjectMeta_ e)) k v st; Some (e, st')
  | PutAnnotation k v =>
      st' ← put_map (v1.Annotations (v1.ObjectMeta_ e)) k v st; Some (e, st')
  | PutSubset i v =>
      match s_ptr (v1.Subsets e) with
      | Some l =>
          if decide (i < s_len (v1.Subsets e)) then
            Some (e, {| heap := set_h_subsets
                          (<[l := <[i := v]> (h_subsets (heap st) !!! l)]>
                             (h_subsets (heap st)))
                          (heap st);
                        lc := lc st |})
          else None
      | None => None
      end
  end.

Definition is_field_assignment (mu : mutation) : bool :=
  match mu with
  | SetObjectMeta _ | SetSubsets _ => true
  | _ => false
  end.

Section Runs.

Variable growslice : nat → nat → nat.

Definition perform (c : call) : M unit :=
  match c with
  | CallAddOrUpdatePod pod => AddOrUpdatePod growslice pod
  | CallDeleteConfigMap namespace name => DeleteConfigMap namespace name
  | CallDeleteSecret namespace name => DeleteSecret namespace name
  | CallUpdateEdgeNode nodeName => UpdateEdgeNode nodeName
  | CallDeleteNode nodeName => DeleteNode nodeName
  | CallAddOrUpdateEndpoints e => AddOrUpdateEndpoints e
  | CallDeleteEndpoints e => DeleteEndpoints e
  end.

(** The cache after a sequence of calls, made one after the other on a
    cache created empty. *)
Definition after (calls : list call) (h : Heap) : State :=
  exec (range calls perform) (initial h).

(** *** Interleaved calls of [AddOrUpdatePod]

    A call in progress is between two operations on a [sync.Map]: about to
    load the list of the next name, or holding the loaded value and about
    to store the new list.  The names of the two loops are one work list. *)
Inductive thread :=
| Loading (work : list (index * string))
| Storing (i : index) (name : string) (value : option any)
          (work : list (index * string)).

Definition work_of (pod : v1.Pod) : list (index * string) :=
  let '(configMaps, secrets) := PodConfigMapsAndSecrets pod in
  (pair ConfigMapIndex <$> configMaps) ++ (pair SecretIndex <$> secrets).

Definition start (pod : v1.Pod) : v1.Pod * thread := (pod, Loading (work_of pod)).

Definition finished (t : v1.Pod * thread) : bool :=
  match t.2 with Loading [] => true | _ => false end.

Definition thread_step (pod : v1.Pod) (t : thread) : M thread :=
  match t with
  | Loading [] => mret t
  | Loading ((i, name) :: work) =>
      value ← Load (index_field i)
                (Sprintf (v1.Namespace (v1.pod_ObjectMeta pod)) name);
      mret (Storing i name value work)
  | Storing i name value work =>
      _ ← storeNodes growslice (index_field i) pod name value;
      mret (Loading work)
  end.

(** One item of the work list, done in one piece. *)
Definition work_step (pod : v1.Pod) (w : index * string) : M unit :=
  addNode growslice (index_field w.1) pod w.2.

(** A schedule names, step by step, the thread that moves. *)
Fixpoint run_schedule (schedule : list nat) (pool : list (v1.Pod * thread))
    : M (list (v1.Pod * thread)) :=
  match schedule with
  | [] => mret pool
  | tid :: schedule =>
      match pool !! tid with
      | Some (pod, t) =>
          t' ← thread_step pod t;
          run_schedule schedule (<[tid := (pod, t')]> pool)
      | None => run_schedule schedule pool
      end
  end.

(** The schedule that runs the threads one after the other. *)
Fixpoint sequential (tid : nat) (pods : list v1.Pod) : list nat :=
  match pods with
  | [] => []
  | pod :: pods => replicate (2 * length (work_of pod)) tid ++ sequential (S tid) pods
  end.

End Runs.

(** The invariant of the two reverse indices: every value is a [[]string]
    whose slice is well formed in the heap, and no two entries share a
    backing array. *)
Definition stored (st : State) (i : index) (key : string) (s : slice) : Prop :=
  table i (lc st) !! key = Some (AnyStrings s).

Record cache_ok (st : State) : Prop := {
  ok_strings : ∀ i key v, table i (lc st) !! key = Some v → ∃ s, v = AnyStrings s;
  ok_wf : ∀ i key s, stored st i key s →
    ∃ l a, s_ptr s = Some l ∧ h_strings (heap st) !! l = Some a
           ∧ length a = s_cap s ∧ s_len s ≤ s_cap s;
  ok_separate : ∀ i1 key1 s1 i2 key2 s2,
    stored st i1 key1 s1 → stored st i2 key2 s2 →
    s_ptr s1 = s_ptr s2 → i1 = i2 ∧ key1 = key2 }.

(** The node lists of an index, as values. *)
Definition nodes_view (st : State) (i : index) : gmap string (list string) :=
  (λ v, elems (h_strings (heap st)) (as_strings v)) <$> table i (lc st).

(** What [newNodes] does to the list, and what one turn of a loop of
    [AddOrUpdatePod] does to the node lists of its index. *)
Definition newNodes_list (oldNodes : list string) (node : string) : list string :=
  if contains oldNodes node then oldNodes else oldNodes ++ [node].

Definition addNode_view (key node : string) (m : gmap string (list string))
    : gmap string (list string) :=
  <[key := newNodes_list (default [] (m !! key)) node]> m.

(** ** Pods the statements are about *)

(** A pod with the five references of the example: a config-map volume, a
    projected volume with one secret source, a container with an [envFrom]
    secret and an [env] entry from a config-map key, an image-pull secret. *)
Definition example_pod (meta : v1.ObjectMeta) (node cfg1 sec1 sec2 cfg2 sec3 : string)
    (key : string) : v1.Pod :=
  {| v1.pod_ObjectMeta := meta;
     v1.Spec :=
       {| v1.Volumes :=
            [ {| v1.vol_Name := "config"; v1.vol_Secret := None;
                 v1.vol_ConfigMap := Some {| v1.cmvs_Name := cfg1 |};
                 v1.vol_Projected := None |};
              {| v1.vol_Name := "projected"; v1.vol_Secret := None;
                 v1.vol_ConfigMap := None;
                 v1.vol_Projected :=
                   Some {| v1.pvs_Sources :=
                             [ {| v1.vp_Secret := Some {| v1.sp_Name := sec1 |};
                                  v1.vp_ConfigMap := None |} ] |} |} ];
          v1.Containers :=
            [ {| v1.c_Name := "main";
                 v1.c_EnvFrom :=
                   [ {| v1.efs_ConfigMapRef := None;
                        v1.efs_SecretRef := Some {| v1.ses_Name := sec2 |} |} ];
                 v1.c_Env :=
                   [ {| v1.ev_Name := "SETTING"; v1.ev_Value := "";
                        v1.ev_ValueFrom :=
                          Some {| v1.evs_ConfigMapKeyRef :=
                                    Some {| v1.cmks_Name := cfg2; v1.cmks_Key := key |};
                                  v1.evs_SecretKeyRef := None |} |} ] |} ];
          v1.ImagePullSecrets := [ {| v1.lor_Name := sec3 |} ];
          v1.NodeName := node |} |}.

(** The pod around one projected source, and around one [env] entry. *)
Definition pod_with_source (meta : v1.ObjectMeta) (node vname : string)
    (vsecret : option v1.SecretVolumeSource) (vconfig : option v1.ConfigMapVolumeSource)
    (before after_ : list v1.VolumeProjection) (vbefore vafter : list v1.Volume)
    (containers : list v1.Container) (pull : list v1.LocalObjectReference)
    (source : v1.VolumeProjection) : v1.Pod :=
  {| v1.pod_ObjectMeta := meta;
     v1.Spec :=
       {| v1.Volumes :=
            vbefore ++
            {| v1.vol_Name := vname; v1.vol_Secret := vsecret;
               v1.vol_ConfigMap := vconfig;
               v1.vol_Projected :=
                 Some {| v1.pvs_Sources := before ++ source :: after_ |} |}
            :: vafter;
          v1.Containers := containers;
          v1.ImagePullSecrets := pull;
          v1.NodeName := node |} |}.

Definition pod_with_env (meta : v1.ObjectMeta) (node cname : string)
    (envFrom : list v1.EnvFromSource) (before after_ : list v1.EnvVar)
    (volumes : list v1.Volume) (cbefore cafter : list v1.Container)
    (pull : list v1.LocalObjectReference) (e : v1.EnvVar) : v1.Pod :=
  {| v1.pod_ObjectMeta := meta;
     v1.Spec :=
       {| v1.Volumes := volumes;
          v1.Containers :=
            cbefore ++
            {| v1.c_Name := cname; v1.c_EnvFrom := envFrom;
               v1.c_Env := before ++ e :: after_ |}
            :: cafter;
          v1.ImagePullSecrets := pull;
          v1.NodeName := node |} |}.

(** ** Notions the statements use *)

(** [acc'] is [acc] with names added at the end. *)
Definition extends (acc acc' : names) : Prop :=
  ∃ d1 d2, acc' = (acc.1 ++ d1, acc.2 ++ d2).

(** The list a key has in a view; a key without entry has none. *)
Definition nodes_at (m : gmap string (list string)) (key : string) : list string :=
  default [] (m !! key).

(** One loop of [AddOrUpdatePod] on the node lists of its index. *)
Definition addNodes_view (namespace node : string) (names : list string)
    (m : gmap string (list string)) : gmap string (list string) :=
  foldl (λ m name, addNode_view (Sprintf namespace name) node m) m names.

(** How many times a node occurs in a list. *)
Definition occurrences (node : string) (nodes : list string) : nat :=
  length (filter (λ n, n = node) nodes).

Definition all_NoDup (m : gmap string (list string)) : Prop :=
  ∀ key nodes, m !! key = Some nodes → NoDup nodes.

(** What the methods on the reverse indices leave alone. *)
Record same_rest (st st' : State) : Prop := {
  rest_EdgeNodes : EdgeNodes (lc st') = EdgeNodes (lc st);
  rest_endpoints : endpoints (lc st') = endpoints (lc st);
  rest_maps : h_maps (heap st') = h_maps (heap st);
  rest_subsets : h_subsets (heap st') = h_subsets (heap st);
  rest_owners : h_owners (heap st') = h_owners (heap st);
  rest_ints : h_ints (heap st') = h_ints (heap st) }.

(** What one turn of a loop of [AddOrUpdatePod] leaves. *)
Record addNode_post (st st' : State) (i : index) (key node : string) : Prop := {
  post_ok : cache_ok st';
  post_view : ∀ j, nodes_view st' j =
    if decide (j = i) then addNode_view key node (nodes_view st j)
    else nodes_view st j;
  post_EdgeNodes : EdgeNodes (lc st') = EdgeNodes (lc st);
  post_endpoints : endpoints (lc st') = endpoints (lc st);
  post_maps : h_maps (heap st') = h_maps (heap st);
  post_subsets : h_subsets (heap st') = h_subsets (heap st);
  post_owners : h_owners (heap st') = h_owners (heap st);
  post_ints : h_ints (heap st') = h_ints (heap st) }.

(** The invariant every sequence of calls keeps. *)
Definition Inv (st : State) : Prop :=
  cache_ok st ∧ ∀ i, all_NoDup (nodes_view st i).


(** "The stored snapshot is a deep copy": whatever the caller does to its
    object after storing it, the stored snapshot has the value it had. *)
Definition stored_snapshot_is_a_deep_copy (st : State) (e : v1.Endpoints)
    (mu : mutation) : Prop :=
  let st1 := exec (AddOrUpdateEndpoints e) st in
  ∀ e' st2, mutate mu e st1 = Some (e', st2) →
    snapshot st2 (endpointsKey e) = snapshot st1 (endpointsKey e).

(** "No concurrent insertion is lost": whatever the schedule, once every call
    has finished the list of the config map holds the node of every pod. *)
Definition no_insert_is_lost (growslice : nat → nat → nat) (pods : list v1.Pod)
    (namespace c : string) (schedule : list nat) (h : Heap) : Prop :=
  NoDup (v1.NodeName ∘ v1.Spec <$> pods) →
  (∀ pod, pod ∈ pods →
     v1.Namespace (v1.pod_ObjectMeta pod) = namespace
     ∧ c ∈ (PodConfigMapsAndSecrets pod).1) →
  let result := run_schedule growslice schedule (start <$> pods) (initial h) in
  (∀ t, t ∈ result.1 → finished t = true) →
  ∀ pod, pod ∈ pods →
    v1.NodeName (v1.Spec pod)
    ∈ elems (h_strings (heap result.2)) (eval (ConfigMapNodes namespace c) result.2).

(** ** Concrete objects *)

Definition plain_meta (namespace name version : string) (generation : Z)
    (labels annotations : mapref) : v1.ObjectMeta :=
  {| v1.Name := name; v1.GenerateName := ""; v1.Namespace := namespace;
     v1.SelfLink := ""; v1.UID := ""; v1.ResourceVersion := version;
     v1.Generation := generation;
     v1.CreationTimestamp := {| v1.t_wall := 0; v1.t_ext := 0; v1.t_loc := None |};
     v1.DeletionTimestamp := None; v1.DeletionGracePeriodSeconds := None;
     v1.Labels := labels; v1.Annotations := annotations;
     v1.OwnerReferences := nil_slice; v1.Initializers_ := None;
     v1.Finalizers := nil_slice; v1.ClusterName := "";
     v1.ManagedFields := nil_slice |}.

(** A growth policy: double the capacity. *)
Definition double (oldcap needed : nat) : nat := 2 * oldcap.

Definition five_reference_pod : v1.Pod :=
  example_pod (plain_meta "ns" "pod" "1" 0 None None)
    "node1" "cfg1" "sec1" "sec2" "cfg2" "sec3" "key".

Definition alias_state : State :=
  exec (AddOrUpdatePod double five_reference_pod) (initial empty_heap).

(** A pod with one config-map volume, scheduled on [node]. *)
Definition config_pod (node : string) : v1.Pod :=
  {| v1.pod_ObjectMeta := plain_meta "ns" node "1" 0 None None;
     v1.Spec :=
       {| v1.Volumes :=
            [ {| v1.vol_Name := "config"; v1.vol_Secret := None;
                 v1.vol_ConfigMap := Some {| v1.cmvs_Name := "cfg" |};
                 v1.vol_Projected := None |} ];
          v1.Containers := [];
          v1.ImagePullSecrets := [];
          v1.NodeName := node |} |}.

(** A heap with a label map at 1 and an annotation map at 2, and two
    versions of one endpoints object that differ in the churn fields. *)
Definition labelled_heap : Heap :=
  set_h_maps {[ 1%positive := {[ "app" := "web" ]};
                2%positive := {[ "checked" := "now" ]} ]} empty_heap.

Definition labelled_endpoints : v1.Endpoints :=
  {| v1.ObjectMeta_ := plain_meta "ns" "svc" "1" 0 (Some 1%positive) None;
     v1.Subsets := nil_slice |}.

Definition churned_endpoints : v1.Endpoints :=
  {| v1.ObjectMeta_ := plain_meta "ns" "svc" "2" 5 (Some 1%positive) (Some 2%positive);
     v1.Subsets := nil_slice |}.

Definition stored_state : State :=
  exec (AddOrUpdateEndpoints labelled_endpoints) (initial labelled_heap).
(** ** The references of a pod, one kind at a time

    The names [PodConfigMapsAndSecrets] collects, written per element: the
    name an optional reference gives, what one projected source, one volume,
    one [envFrom] entry, one [env] entry and one container contribute. *)

Definition opt_name {A} (name : A → string) (ref : option A) : list string :=
  match ref with Some r => [name r] | None => [] end.

Definition source_configMaps (source : v1.VolumeProjection) : list string :=
  opt_name v1.cmp_Name (v1.vp_ConfigMap source).

Definition source_secrets (source : v1.VolumeProjection) : list string :=
  match v1.vp_ConfigMap source with
  | Some _ => []
  | None => opt_name v1.sp_Name (v1.vp_Secret source)
  end.

Definition volume_configMaps (v : v1.Volume) : list string :=
  opt_name v1.cmvs_Name (v1.vol_ConfigMap v)
  ++ match v1.vol_Projected v with
     | Some p => v1.pvs_Sources p ≫= source_configMaps
     | None => []
     end.

Definition volume_secrets (v : v1.Volume) : list string :=
  opt_name v1.svs_SecretName (v1.vol_Secret v)
  ++ match v1.vol_Projected v with
     | Some p => v1.pvs_Sources p ≫= source_secrets
     | None => []
     end.

Definition envFrom_configMaps (ef : v1.EnvFromSource) : list string :=
  opt_name v1.cmes_Name (v1.efs_ConfigMapRef ef).

Definition envFrom_secrets (ef : v1.EnvFromSource) : list string :=
  opt_name v1.ses_Name (v1.efs_SecretRef ef).

Definition env_configMaps (e : v1.EnvVar) : list string :=
  match v1.ev_ValueFrom e with
  | Some vf => opt_name v1.cmks_Name (v1.evs_ConfigMapKeyRef vf)
  | None => []
  end.

Definition env_secrets (e : v1.EnvVar) : list string :=
  match v1.ev_ValueFrom e with
  | Some vf =>
      match v1.evs_ConfigMapKeyRef vf with
      | Some _ => []
      | None => opt_name v1.sks_Name (v1.evs_SecretKeyRef vf)
      end
  | None => []
  end.

Definition container_configMaps (s : v1.Container) : list string :=
  (v1.c_EnvFrom s ≫= envFrom_configMaps) ++ (v1.c_Env s ≫= env_configMaps).

Definition container_secrets (s : v1.Container) : list string :=
  (v1.c_EnvFrom s ≫= envFrom_secrets) ++ (v1.c_Env s ≫= env_secrets).

Definition configMapsOf (pod : v1.Pod) : list string :=
  (v1.Volumes (v1.Spec pod) ≫= volume_configMaps)
  ++ (v1.Containers (v1.Spec pod) ≫= container_configMaps).

Definition secretsOf (pod : v1.Pod) : list string :=
  (v1.Volumes (v1.Spec pod) ≫= volume_secrets)
  ++ (v1.Containers (v1.Spec pod) ≫= container_secrets)
  ++ (v1.lor_Name <$> v1.ImagePullSecrets (v1.Spec pod)).

(** The keys of an index a pod's node is recorded under. *)
Definition pod_names (i : index) (pod : v1.Pod) : list string :=
  match i with
  | ConfigMapIndex => (PodConfigMapsAndSecrets pod).1
  | SecretIndex => (PodConfigMapsAndSecrets pod).2
  end.

Definition pod_keys (i : index) (pod : v1.Pod) : list string :=
  Sprintf (v1.Namespace (v1.pod_ObjectMeta pod)) <$> pod_names i pod.

(** The separator of the keys, and a string without it. *)
Definition slash : Ascii.ascii := Ascii.Ascii true true true true false true false false.

Fixpoint no_slash (s : string) : bool :=
  match s with
  | EmptyString => true
  | String c s => if Ascii.eqb c slash then false else no_slash s
  end.

(** Whether a name is an edge node after a sequence of calls, read off the
    calls: the last [UpdateEdgeNode] or [DeleteNode] of the name decides. *)
Definition edge_step (nodeName : string) (b : bool) (c : call) : bool :=
  match c with
  | CallUpdateEdgeNode n => if decide (n = nodeName) then true else b
  | CallDeleteNode n => if decide (n = nodeName) then false else b
  | _ => b
  end.

Definition edge_after (nodeName : string) (calls : list call) : bool :=
  foldl (edge_step nodeName) false calls.

(** Every value of the endpoints map is an endpoints object, stored under
    its own key. *)
Definition endpoints_ok (st : State) : Prop :=
  ∀ key v, endpoints (lc st) !! key = Some v →
    ∃ e, v = AnyEndpoints e ∧ key = endpointsKey e.

(** * Dependency extraction *)

Lemma extends_refl acc : extends acc acc.
Proof. exists [], []. rewrite !app_nil_r. by destruct acc. Qed.

Lemma extends_trans a b c : extends a b → extends b c → extends a c.
Proof.
  intros (d1 & d2 & ->) (e1 & e2 & ->). exists (d1 ++ e1), (d2 ++ e2).
  simpl. by rewrite !app_assoc.
Qed.

Lemma extends_l acc x : extends acc (acc.1 ++ [x], acc.2).
Proof. exists [x], []. by rewrite app_nil_r. Qed.

Lemma extends_r acc x : extends acc (acc.1, acc.2 ++ [x]).
Proof. exists [], [x]. by rewrite app_nil_r. Qed.

Lemma extends_elem_1 acc acc' x : extends acc acc' → x ∈ acc.1 → x ∈ acc'.1.
Proof. intros (d1 & d2 & ->) ?. simpl. set_solver. Qed.

Lemma extends_foldl {A} (f : names → A → names) xs :
  (∀ acc x, extends acc (f acc x)) → ∀ acc, extends acc (foldl f acc xs).
Proof.
  intros Hf. induction xs as [|x xs IH]; intros acc; simpl.
  - apply extends_refl.
  - eapply extends_trans; [apply Hf | apply IH].
Qed.

Lemma fromSource_extends acc source : extends acc (fromSource acc source).
Proof.
  unfold fromSource.
  destruct (v1.vp_ConfigMap source), (v1.vp_Secret source);
    auto using extends_refl, extends_l, extends_r.
Qed.

Lemma fromVolume_extends acc v : extends acc (fromVolume acc v).
Proof.
  unfold fromVolume.
  eapply (extends_trans _ (match v1.vol_ConfigMap v with
                           | Some c => (acc.1 ++ [v1.cmvs_Name c], acc.2)
                           | None => acc end)).
  { destruct (v1.vol_ConfigMap v); [apply extends_l | apply extends_refl]. }
  set (acc1 := match v1.vol_ConfigMap v with Some _ => _ | None => _ end).
  eapply (extends_trans _ (match v1.vol_Secret v with
                           | Some s => (acc1.1, acc1.2 ++ [v1.svs_SecretName s])
                           | None => acc1 end)).
  { destruct (v1.vol_Secret v); [apply extends_r | apply extends_refl]. }
  destruct (v1.vol_Projected v);
    [apply extends_foldl, fromSource_extends | apply extends_refl].
Qed.

Lemma fromEnvFrom_extends acc ef : extends acc (fromEnvFrom acc ef).
Proof.
  unfold fromEnvFrom.
  destruct (v1.efs_ConfigMapRef ef), (v1.efs_SecretRef ef);
    try apply extends_refl; try apply extends_l; try apply extends_r.
  eapply extends_trans; [apply extends_l | apply extends_r].
Qed.

Lemma fromEnv_extends acc e : extends acc (fromEnv acc e).
Proof.
  unfold fromEnv. destruct (v1.ev_ValueFrom e) as [vf|]; [|apply extends_refl].
  destruct (v1.evs_ConfigMapKeyRef vf), (v1.evs_SecretKeyRef vf);
    auto using extends_refl, extends_l, extends_r.
Qed.

Lemma fromContainer_extends acc s : extends acc (fromContainer acc s).
Proof.
  unfold fromContainer.
  apply (extends_trans _ (foldl fromEnvFrom acc (v1.c_EnvFrom s))).
  - apply extends_foldl, fromEnvFrom_extends.
  - apply extends_foldl, fromEnv_extends.
Qed.

Lemma fromImagePullSecret_extends acc s : extends acc (fromImagePullSecret acc s).
Proof. apply extends_r. Qed.

(** C4.  For the pod with a config-map volume [cfg1], a projected secret
    source [sec1], an [envFrom] secret [sec2], an [env] entry from a key of
    config map [cfg2] and an image-pull secret [sec3],
    [PodConfigMapsAndSecrets] returns the config maps [cfg1; cfg2] and the
    secrets [sec1; sec2; sec3], so membership is that of the two sets. *)
Theorem extraction_example meta node cfg1 sec1 sec2 cfg2 sec3 key :
  let pod := example_pod meta node cfg1 sec1 sec2 cfg2 sec3 key in
  PodConfigMapsAndSecrets pod = ([cfg1; cfg2], [sec1; sec2; sec3])
  ∧ (∀ c, c ∈ (PodConfigMapsAndSecrets pod).1 ↔ c = cfg1 ∨ c = cfg2)
  ∧ (∀ s, s ∈ (PodConfigMapsAndSecrets pod).2 ↔ s = sec1 ∨ s = sec2 ∨ s = sec3).
Proof.
  intros pod.
  assert (PodConfigMapsAndSecrets pod = ([cfg1; cfg2], [sec1; sec2; sec3])) as ->
    by reflexivity.
  split; [done|].
  split; intros x; simpl; rewrite !elem_of_cons, elem_of_nil; tauto.
Qed.

(** C10.  A projected source with both a config map and a secret adds the
    config map's name only: the extraction of the pod is that of the pod
    whose source has no secret, and the name of the config map is among the
    config maps.  The same holds for an [env] entry whose value source has
    both a [configMapKeyRef] and a [secretKeyRef]. *)
Theorem config_map_reference_wins :
  (∀ acc c s,
     fromSource acc {| v1.vp_Secret := Some s; v1.vp_ConfigMap := Some c |}
     = (acc.1 ++ [v1.cmp_Name c], acc.2))
  ∧ (∀ meta node vname vsecret vconfig before after_ vbefore vafter containers pull c s,
       let pod := pod_with_source meta node vname vsecret vconfig before after_
                    vbefore vafter containers pull in
       PodConfigMapsAndSecrets
         (pod {| v1.vp_Secret := Some s; v1.vp_ConfigMap := Some c |})
       = PodConfigMapsAndSecrets
           (pod {| v1.vp_Secret := None; v1.vp_ConfigMap := Some c |})
       ∧ v1.cmp_Name c ∈ (PodConfigMapsAndSecrets
           (pod {| v1.vp_Secret := Some s; v1.vp_ConfigMap := Some c |})).1)
  ∧ (∀ acc name value c s,
       fromEnv acc {| v1.ev_Name := name; v1.ev_Value := value;
                      v1.ev_ValueFrom :=
                        Some {| v1.evs_ConfigMapKeyRef := Some c;
                                v1.evs_SecretKeyRef := Some s |} |}
       = (acc.1 ++ [v1.cmks_Name c], acc.2))
  ∧ (∀ meta node cname envFrom before after_ volumes cbefore cafter pull name value c s,
       let pod vf := pod_with_env meta node cname envFrom before after_
                    volumes cbefore cafter pull
                    {| v1.ev_Name := name; v1.ev_Value := value;
                       v1.ev_ValueFrom := Some vf |} in
       PodConfigMapsAndSecrets
         (pod {| v1.evs_ConfigMapKeyRef := Some c; v1.evs_SecretKeyRef := Some s |})
       = PodConfigMapsAndSecrets
           (pod {| v1.evs_ConfigMapKeyRef := Some c; v1.evs_SecretKeyRef := None |})
       ∧ v1.cmks_Name c ∈ (PodConfigMapsAndSecrets
           (pod {| v1.evs_ConfigMapKeyRef := Some c; v1.evs_SecretKeyRef := Some s |})).1).
Proof.
  split; [done|]. split; [|split; [done|]].
  - intros. split.
    + unfold pod, pod_with_source, PodConfigMapsAndSecrets. simpl.
      rewrite !foldl_app. simpl. do 2 f_equal.
      unfold fromVolume. simpl. by rewrite !foldl_app.
    + unfold pod, pod_with_source, PodConfigMapsAndSecrets. simpl.
      eapply extends_elem_1; [apply extends_foldl, fromImagePullSecret_extends|].
      eapply extends_elem_1; [apply extends_foldl, fromContainer_extends|].
      rewrite foldl_app. simpl.
      eapply extends_elem_1; [apply extends_foldl, fromVolume_extends|].
      unfold fromVolume at 1. simpl. rewrite foldl_app. simpl.
      eapply extends_elem_1; [apply extends_foldl, fromSource_extends|].
      unfold fromSource at 1. simpl. rewrite elem_of_app, list_elem_of_singleton; by right.
  - intros. split.
    + unfold pod, pod_with_env, PodConfigMapsAndSecrets. simpl.
      rewrite !foldl_app. simpl. do 2 f_equal.
      unfold fromContainer. simpl. by rewrite !foldl_app.
    + unfold pod, pod_with_env, PodConfigMapsAndSecrets. simpl.
      eapply extends_elem_1; [apply extends_foldl, fromImagePullSecret_extends|].
      rewrite foldl_app. simpl.
      eapply extends_elem_1; [apply extends_foldl, fromContainer_extends|].
      unfold fromContainer at 1. simpl. rewrite foldl_app. simpl.
      eapply extends_elem_1; [apply extends_foldl, fromEnv_extends|].
      unfold fromEnv at 1. simpl. rewrite elem_of_app, list_elem_of_singleton; by right.
Qed.

(** * The reverse indices *)

Lemma contains_elem_of nodes node : contains nodes node = true ↔ node ∈ nodes.
Proof.
  induction nodes as [|n nodes IH]; simpl.
  - rewrite elem_of_nil. split; [discriminate | tauto].
  - rewrite elem_of_cons. destruct (decide (n = node)) as [->|Hne].
    + split; auto.
    + rewrite IH. split; [auto | intros [?|?]; congruence].
Qed.

Lemma newNodes_list_elem oldNodes node : node ∈ newNodes_list oldNodes node.
Proof.
  unfold newNodes_list. destruct (contains oldNodes node) eqn:E.
  - by apply contains_elem_of.
  - rewrite elem_of_app, list_elem_of_singleton. by right.
Qed.

Lemma newNodes_list_mono oldNodes node x :
  x ∈ oldNodes → x ∈ newNodes_list oldNodes node.
Proof.
  unfold newNodes_list. destruct (contains oldNodes node); [done|].
  rewrite elem_of_app. by left.
Qed.

Lemma newNodes_list_elem_inv oldNodes node x :
  x ∈ newNodes_list oldNodes node → x ∈ oldNodes ∨ x = node.
Proof.
  unfold newNodes_list. destruct (contains oldNodes node); [by left|].
  rewrite elem_of_app, list_elem_of_singleton. tauto.
Qed.

Lemma newNodes_list_NoDup oldNodes node :
  NoDup oldNodes → NoDup (newNodes_list oldNodes node).
Proof.
  intros Hnd. unfold newNodes_list. destruct (contains oldNodes node) eqn:E; [done|].
  apply NoDup_app. split; [done|]. split; [|apply NoDup_singleton].
  intros x Hx ->%list_elem_of_singleton.
  apply contains_elem_of in Hx. congruence.
Qed.

Lemma set_h_strings_id h : set_h_strings (h_strings h) h = h.
Proof. by destruct h. Qed.

Lemma table_f_set i j m c :
  table j (f_set (index_field i) m c) = if decide (j = i) then m else table j c.
Proof. by destruct i, j. Qed.

Lemma EdgeNodes_f_set i m c : EdgeNodes (f_set (index_field i) m c) = EdgeNodes c.
Proof. by destruct i. Qed.

Lemma endpoints_f_set i m c : endpoints (f_set (index_field i) m c) = endpoints c.
Proof. by destruct i. Qed.

Lemma cache_ok_initial h : cache_ok (initial h).
Proof.
  assert (∀ i key, table i (lc (initial h)) !! key = None) as E
    by (intros [] key; apply lookup_empty).
  split; unfold stored.
  - intros i key v. by rewrite E.
  - intros i key s. by rewrite E.
  - intros i1 key1 s1 ? ? ?. by rewrite E.
Qed.

Section Store.

Variables (st : State) (i : index) (key : string) (s : slice).
Variables (hs' : gmap loc (list string)) (l : loc) (a : list string).

Let st' : State :=
  {| heap := set_h_strings hs' (heap st);
     lc := f_set (index_field i) (<[key := AnyStrings s]> (table i (lc st))) (lc st) |}.

Lemma stored_store j k s2 :
  stored st' j k s2 ↔
  (j = i ∧ k = key ∧ s2 = s) ∨ (¬ (j = i ∧ k = key) ∧ stored st j k s2).
Proof.
  unfold stored, st'. simpl. rewrite table_f_set.
  destruct (decide (j = i)) as [->|Hj].
  - destruct (decide (k = key)) as [->|Hk].
    + rewrite lookup_insert_eq. split.
      * intros [= ->]. by left.
      * intros [(_ & _ & ->)|[[] _]]; done.
    + rewrite lookup_insert_ne by done. split.
      * intros H. right. split; [intros [_ ?]; done | done].
      * intros [(_ & ? & _)|[_ ?]]; done.
  - split.
    + intros H. right. split; [intros [? _]; done | done].
    + intros [(? & _ & _)|[_ ?]]; done.
Qed.

Hypothesis Hok : cache_ok st.
Hypothesis Hptr : s_ptr s = Some l.
Hypothesis Harr : hs' !! l = Some a.
Hypothesis Hcap : length a = s_cap s.
Hypothesis Hlen : s_len s ≤ s_cap s.
Hypothesis Hframe : ∀ l', l' ≠ l → hs' !! l' = h_strings (heap st) !! l'.
Hypothesis Hown : ∀ i2 k2 s2,
  stored st i2 k2 s2 → s_ptr s2 = Some l → i2 = i ∧ k2 = key.

Lemma elems_frame s2 j k :
  stored st j k s2 → ¬ (j = i ∧ k = key) →
  elems hs' s2 = elems (h_strings (heap st)) s2.
Proof.
  intros Hs Hne. destruct (ok_wf st Hok _ _ _ Hs) as (l2 & a2 & Hp & Ha & _).
  unfold elems. rewrite Hp.
  assert (l2 ≠ l) as Hl by (intros ->; apply Hne; eauto).
  unfold lookup_total, map_lookup_total. by rewrite (Hframe _ Hl).
Qed.

Lemma cache_ok_store : cache_ok st'.
Proof.
  split.
  - intros j k v. unfold st'. simpl. rewrite table_f_set.
    destruct (decide (j = i)) as [->|Hj]; [|apply (ok_strings st Hok)].
    destruct (decide (k = key)) as [->|Hk].
    + rewrite lookup_insert_eq. intros [= <-]. eauto.
    + rewrite lookup_insert_ne by done. apply (ok_strings st Hok).
  - intros j k s2 [(-> & -> & ->)|[Hne Hs]]%stored_store.
    + exists l, a. simpl. eauto.
    + destruct (ok_wf st Hok _ _ _ Hs) as (l2 & a2 & Hp & Ha & Hc & Hl).
      exists l2, a2. simpl. rewrite Hframe; [done|].
      intros ->. apply Hne. eauto.
  - intros j1 k1 s1 j2 k2 s2
      [(-> & -> & ->)|[Hne1 Hs1]]%stored_store
      [(-> & -> & ->)|[Hne2 Hs2]]%stored_store Heq; [done| | |].
    + exfalso. apply Hne2. apply (Hown _ _ _ Hs2). congruence.
    + exfalso. apply Hne1. apply (Hown _ _ _ Hs1). congruence.
    + eapply (ok_separate st Hok); eauto.
Qed.

Lemma nodes_view_store j :
  nodes_view st' j =
  if decide (j = i) then <[key := take (s_len s) a]> (nodes_view st j)
  else nodes_view st j.
Proof.
  apply map_eq. intros k. unfold nodes_view at 1. rewrite lookup_fmap.
  assert (∀ v, table j (lc st) !! k = Some v → ¬ (j = i ∧ k = key) →
    elems (h_strings (heap st')) (as_strings v)
    = elems (h_strings (heap st)) (as_strings v)) as Hfr.
  { intros v Hv Hne. destruct (ok_strings st Hok _ _ _ Hv) as [s2 ->].
    simpl. by eapply elems_frame. }
  unfold st' at 2. simpl. rewrite table_f_set.
  destruct (decide (j = i)) as [->|Hj].
  - destruct (decide (k = key)) as [->|Hk].
    + rewrite !lookup_insert_eq. simpl. unfold elems. rewrite Hptr.
      unfold lookup_total, map_lookup_total. by rewrite Harr.
    + rewrite !lookup_insert_ne by done. unfold nodes_view. rewrite lookup_fmap.
      destruct (table i (lc st) !! k) as [v|] eqn:Hv; [|done]. simpl.
      f_equal. apply Hfr; [done | intros [_ ?]; done].
  - unfold nodes_view. rewrite lookup_fmap.
    destruct (table j (lc st) !! k) as [v|] eqn:Hv; [|done]. simpl.
    f_equal. apply Hfr; [done | intros [? _]; done].
Qed.

Lemma other_fields_store :
  EdgeNodes (lc st') = EdgeNodes (lc st) ∧ endpoints (lc st') = endpoints (lc st)
  ∧ h_maps (heap st') = h_maps (heap st) ∧ h_subsets (heap st') = h_subsets (heap st)
  ∧ h_owners (heap st') = h_owners (heap st) ∧ h_ints (heap st') = h_ints (heap st).
Proof.
  unfold st'. simpl. by rewrite EdgeNodes_f_set, endpoints_f_set.
Qed.

End Store.

Section AddNode.
Variable growslice : nat → nat → nat.

Lemma addNode_post_store st i key node s hs' l a :
  cache_ok st → s_ptr s = Some l → hs' !! l = Some a → length a = s_cap s →
  s_len s ≤ s_cap s →
  (∀ l', l' ≠ l → hs' !! l' = h_strings (heap st) !! l') →
  (∀ i2 k2 s2, stored st i2 k2 s2 → s_ptr s2 = Some l → i2 = i ∧ k2 = key) →
  take (s_len s) a = newNodes_list (default [] (nodes_view st i !! key)) node →
  addNode_post st
    {| heap := set_h_strings hs' (heap st);
       lc := f_set (index_field i) (<[key := AnyStrings s]> (table i (lc st))) (lc st) |}
    i key node.
Proof.
  intros Hok Hptr Harr Hcap Hlen Hframe Hown Hview.
  pose proof (other_fields_store st i key s hs') as (? & ? & ? & ? & ? & ?).
  split; try done.
  - by eapply cache_ok_store.
  - intros j. rewrite (nodes_view_store st i key s hs' l a) by done.
    destruct (decide (j = i)) as [->|]; [|done].
    unfold addNode_view. by rewrite Hview.
Qed.

Lemma fresh_strings_unowned st (i : index) (key : string) i2 k2 s2 :
  cache_ok st → stored st i2 k2 s2 →
  s_ptr s2 = Some (fresh (dom (h_strings (heap st)))) → i2 = i ∧ k2 = key.
Proof.
  intros Hok Hs Hp. destruct (ok_wf st Hok _ _ _ Hs) as (l2 & a2 & Hp2 & Ha & _).
  rewrite Hp in Hp2. injection Hp2 as <-.
  exfalso. apply (is_fresh (dom (h_strings (heap st)))).
  apply elem_of_dom. eauto.
Qed.

Lemma addNode_spec st i pod name :
  cache_ok st →
  addNode_post st (exec (addNode growslice (index_field i) pod name) st) i
    (Sprintf (v1.Namespace (v1.pod_ObjectMeta pod)) name) (v1.NodeName (v1.Spec pod)).
Proof.
  intros Hok.
  set (key := Sprintf _ name). set (node := v1.NodeName _).
  unfold exec, addNode, storeNodes, Load, mbind, M_bind, mret, M_ret. simpl.
  fold key node. change (f_get (index_field i) (lc st)) with (table i (lc st)).
  assert (nodes_view st i !! key
          = (λ v, elems (h_strings (heap st)) (as_strings v)) <$> table i (lc st) !! key)
    as Hv by (unfold nodes_view; apply lookup_fmap).
  destruct (table i (lc st) !! key) as [v|] eqn:Hlook; simpl in Hv.
  - destruct (ok_strings st Hok _ _ _ Hlook) as [s0 ->]. simpl in *.
    destruct (ok_wf st Hok i key s0 Hlook) as (l0 & a0 & Hp0 & Ha0 & Hc0 & Hl0).
    assert (elems (h_strings (heap st)) s0 = take (s_len s0) a0) as Hel.
    { unfold elems. rewrite Hp0. unfold lookup_total, map_lookup_total.
      by rewrite Ha0. }
    unfold newNodes, get_heap, Store, mbind, M_bind, mret, M_ret. simpl.
    destruct (contains (elems (h_strings (heap st)) s0) node) eqn:Hc; simpl.
    + rewrite <- (set_h_strings_id (heap st)) at 1.
      apply (addNode_post_store st i key node s0 _ l0 a0); try done.
      * intros i2 k2 s2 Hs2 Hp2. eapply (ok_separate st Hok); eauto. congruence.
      * rewrite Hv. simpl. unfold newNodes_list. by rewrite Hc, Hel.
    + unfold append. rewrite Hp0.
      destruct (decide (s_len s0 < s_cap s0)) as [Hroom|Hfull]; simpl.
      * unfold put_heap, get_heap, mbind, M_bind, mret, M_ret. simpl.
        unfold lookup_total, map_lookup_total. rewrite Ha0. simpl.
        apply (addNode_post_store st i key node
                 (Slice (Some l0) (S (s_len s0)) (s_cap s0)) _ l0
                 (<[s_len s0 := node]> a0)); simpl; try done.
        -- apply lookup_insert_eq.
        -- by rewrite length_insert.
        -- intros l' Hl'. by rewrite lookup_insert_ne.
        -- intros i2 k2 s2 Hs2 Hp2. eapply (ok_separate st Hok); eauto. congruence.
        -- rewrite Hv. simpl. unfold newNodes_list. rewrite Hc, Hel.
           rewrite (take_S_r _ _ node).
           ++ by rewrite take_insert_ge by lia.
           ++ apply list_lookup_insert_eq. lia.
      * unfold grow, get_heap, alloc_strings, mbind, M_bind, mret, M_ret. simpl.
        set (c := S (s_len s0) `max` growslice (s_cap s0) (S (s_len s0))).
        set (l := fresh (dom (h_strings (heap st)))).
        assert (length (elems (h_strings (heap st)) s0) = s_len s0) as Hlen0.
        { rewrite Hel, length_take. lia. }
        apply (addNode_post_store st i key node
                 (Slice (Some l) (S (s_len s0)) c) _ l
                 (elems (h_strings (heap st)) s0
                  ++ node :: replicate (c - S (s_len s0)) "")); simpl; try done.
        -- apply lookup_insert_eq.
        -- rewrite length_app, Hlen0. simpl. rewrite length_replicate. lia.
        -- lia.
        -- intros l' Hl'. by rewrite lookup_insert_ne.
        -- intros. by eapply fresh_strings_unowned.
        -- rewrite Hv. simpl. unfold newNodes_list. rewrite Hc.
           rewrite take_app, Hlen0, take_ge by lia.
           by replace (S (s_len s0) - s_len s0) with 1 by lia.
  - unfold literal, alloc_strings, Store, mbind, M_bind, mret, M_ret. simpl.
    set (l := fresh (dom (h_strings (heap st)))).
    apply (addNode_post_store st i key node (Slice (Some l) 1 1) _ l [node]);
      simpl; try done.
    + apply lookup_insert_eq.
    + intros l' Hl'. by rewrite lookup_insert_ne.
    + intros. by eapply fresh_strings_unowned.
    + by rewrite Hv.
Qed.
End AddNode.

Lemma occurrences_not_elem node nodes : node ∉ nodes → occurrences node nodes = 0.
Proof.
  unfold occurrences. induction nodes as [|n nodes IH]; intros Hn; [done|].
  apply not_elem_of_cons in Hn as [Hne Hn]. rewrite filter_cons.
  destruct (decide (n = node)); [congruence | auto].
Qed.

Lemma occurrences_NoDup node nodes :
  NoDup nodes → node ∈ nodes → occurrences node nodes = 1.
Proof.
  induction 1 as [|n nodes Hn Hnd IH]; intros Hin.
  - by apply elem_of_nil in Hin.
  - unfold occurrences. rewrite filter_cons. destruct (decide (n = node)) as [->|Hne].
    + simpl. f_equal. by apply occurrences_not_elem.
    + apply elem_of_cons in Hin as [->|Hin]; [done | by apply IH].
Qed.

(** The node lists under [addNode_view] and [addNodes_view]. *)
Lemma nodes_at_addNode_view key node m k :
  nodes_at (addNode_view key node m) k =
  if decide (k = key) then newNodes_list (nodes_at m key) node else nodes_at m k.
Proof.
  unfold nodes_at, addNode_view. destruct (decide (k = key)) as [->|Hne].
  - by rewrite lookup_insert_eq.
  - by rewrite lookup_insert_ne.
Qed.

Lemma addNode_view_NoDup key node m : all_NoDup m → all_NoDup (addNode_view key node m).
Proof.
  intros Hm k nodes. unfold addNode_view.
  destruct (decide (k = key)) as [->|Hne].
  - rewrite lookup_insert_eq. intros [= <-]. apply newNodes_list_NoDup.
    destruct (m !! key) eqn:E; simpl; [by eapply Hm | apply NoDup_nil_2].
  - rewrite lookup_insert_ne by done. apply Hm.
Qed.

Lemma addNode_view_mono key node m k x :
  x ∈ nodes_at m k → x ∈ nodes_at (addNode_view key node m) k.
Proof.
  rewrite nodes_at_addNode_view. destruct (decide (k = key)) as [->|]; [|done].
  apply newNodes_list_mono.
Qed.

Lemma addNodes_view_NoDup namespace node names m :
  all_NoDup m → all_NoDup (addNodes_view namespace node names m).
Proof.
  unfold addNodes_view. revert m.
  induction names as [|name names IH]; intros m Hm; simpl; [done|].
  by apply IH, addNode_view_NoDup.
Qed.

Lemma addNodes_view_mono namespace node names m k x :
  x ∈ nodes_at m k → x ∈ nodes_at (addNodes_view namespace node names m) k.
Proof.
  unfold addNodes_view. revert m.
  induction names as [|name names IH]; intros m Hm; simpl; [done|].
  by apply IH, addNode_view_mono.
Qed.

Lemma addNodes_view_elem namespace node names m name :
  name ∈ names →
  node ∈ nodes_at (addNodes_view namespace node names m) (Sprintf namespace name).
Proof.
  unfold addNodes_view. revert m.
  induction names as [|n names IH]; intros m Hin; simpl.
  - by apply elem_of_nil in Hin.
  - apply elem_of_cons in Hin as [->|Hin]; [|by apply IH].
    apply (addNodes_view_mono namespace node names).
    rewrite nodes_at_addNode_view, decide_True by done.
    apply newNodes_list_elem.
Qed.

(** Only the node of the pod is ever added. *)
Lemma addNodes_view_elem_inv namespace node names m k x :
  x ∈ nodes_at (addNodes_view namespace node names m) k → x ∈ nodes_at m k ∨ x = node.
Proof.
  unfold addNodes_view. revert m.
  induction names as [|n names IH]; intros m; simpl; [by left|].
  intros [Hx|]%IH; [|by right].
  rewrite nodes_at_addNode_view in Hx. destruct (decide (k = _)) as [->|]; [|by left].
  by apply newNodes_list_elem_inv.
Qed.

Lemma exec_range_cons {A} (f : A → M unit) x xs st :
  exec (range (x :: xs) f) st = exec (range xs f) (exec (f x) st).
Proof.
  unfold exec. simpl. unfold mbind, M_bind. by destruct (f x st).
Qed.

Lemma exec_range_app {A} (f : A → M unit) xs ys st :
  exec (range (xs ++ ys) f) st = exec (range ys f) (exec (range xs f) st).
Proof.
  revert st. induction xs as [|x xs IH]; intros st; [done|].
  simpl app. by rewrite !exec_range_cons, IH.
Qed.

Lemma same_rest_refl st : same_rest st st.
Proof. by split. Qed.

Lemma same_rest_trans st1 st2 st3 : same_rest st1 st2 → same_rest st2 st3 → same_rest st1 st3.
Proof. intros [] []. split; congruence. Qed.

Section Pods.
Variable growslice : nat → nat → nat.

Lemma range_addNode_spec st i pod names :
  cache_ok st →
  let st' := exec (range names (addNode growslice (index_field i) pod)) st in
  cache_ok st'
  ∧ (∀ j, nodes_view st' j =
       if decide (j = i)
       then addNodes_view (v1.Namespace (v1.pod_ObjectMeta pod))
              (v1.NodeName (v1.Spec pod)) names (nodes_view st j)
       else nodes_view st j)
  ∧ same_rest st st'.
Proof.
  revert st. induction names as [|name names IH]; intros st Hok; cbv zeta.
  - change (exec (range [] _) st) with st.
    split; [done|]. split; [|apply same_rest_refl].
    intros j. by destruct (decide (j = i)).
  - rewrite exec_range_cons.
    destruct (addNode_spec growslice st i pod name Hok) as [Hok1 Hv1 ? ? ? ? ? ?].
    destruct (IH _ Hok1) as (Hok2 & Hv2 & Hr2).
    split; [done|]. split.
    + intros j. rewrite Hv2, Hv1. by destruct (decide (j = i)).
    + eapply same_rest_trans; [|exact Hr2]. by split.
Qed.

Lemma AddOrUpdatePod_spec st pod :
  cache_ok st →
  let st' := exec (AddOrUpdatePod growslice pod) st in
  let namespace := v1.Namespace (v1.pod_ObjectMeta pod) in
  let node := v1.NodeName (v1.Spec pod) in
  cache_ok st'
  ∧ nodes_view st' ConfigMapIndex =
      addNodes_view namespace node (PodConfigMapsAndSecrets pod).1
        (nodes_view st ConfigMapIndex)
  ∧ nodes_view st' SecretIndex =
      addNodes_view namespace node (PodConfigMapsAndSecrets pod).2
        (nodes_view st SecretIndex)
  ∧ same_rest st st'.
Proof.
  intros Hok. unfold AddOrUpdatePod.
  destruct (PodConfigMapsAndSecrets pod) as [configMaps secrets]. simpl.
  destruct (range_addNode_spec st ConfigMapIndex pod configMaps Hok)
    as (Hok1 & Hv1 & Hr1).
  destruct (range_addNode_spec _ SecretIndex pod secrets Hok1)
    as (Hok2 & Hv2 & Hr2).
  assert (exec (_ ← range configMaps (addNode growslice configMapNode_f pod);
                range secrets (addNode growslice secretNode_f pod)) st
          = exec (range secrets (addNode growslice (index_field SecretIndex) pod))
              (exec (range configMaps
                       (addNode growslice (index_field ConfigMapIndex) pod)) st))
    as ->.
  { unfold exec, mbind, M_bind. simpl.
    by destruct (range configMaps (addNode growslice configMapNode_f pod) st). }
  split; [done|]. split; [|split].
  - by rewrite Hv2, Hv1.
  - by rewrite Hv2, Hv1.
  - by eapply same_rest_trans.
Qed.

End Pods.

Lemma cache_ok_sub st st' :
  (∀ i key v, table i (lc st') !! key = Some v → table i (lc st) !! key = Some v) →
  h_strings (heap st') = h_strings (heap st) →
  cache_ok st → cache_ok st'.
Proof.
  intros Hsub Hh Hok. split.
  - intros i key v Hv. eapply (ok_strings st Hok), Hsub, Hv.
  - intros i key s Hs. rewrite Hh. eapply (ok_wf st Hok), Hsub, Hs.
  - intros i1 k1 s1 i2 k2 s2 H1 H2.
    eapply (ok_separate st Hok); by apply Hsub.
Qed.

Lemma nodes_view_same st st' i :
  table i (lc st') = table i (lc st) → h_strings (heap st') = h_strings (heap st) →
  nodes_view st' i = nodes_view st i.
Proof. unfold nodes_view. by intros -> ->. Qed.

Lemma Delete_index_spec st i key :
  let st' := exec (Delete (index_field i) key) st in
  (cache_ok st → cache_ok st')
  ∧ (∀ j, nodes_view st' j =
       if decide (j = i) then delete key (nodes_view st j) else nodes_view st j)
  ∧ same_rest st st'.
Proof.
  cbv zeta. unfold exec, Delete. simpl. split; [|split].
  - apply cache_ok_sub; [|done]. intros j k v. simpl. rewrite table_f_set.
    destruct (decide (j = i)) as [->|]; [|done].
    change (f_get (index_field i) (lc st)) with (table i (lc st)).
    rewrite lookup_delete_Some. tauto.
  - intros j. unfold nodes_view. simpl. rewrite table_f_set.
    destruct (decide (j = i)) as [->|]; [|done].
    by rewrite fmap_delete.
  - split; simpl; by rewrite ?EdgeNodes_f_set, ?endpoints_f_set.
Qed.

Lemma all_NoDup_delete key m : all_NoDup m → all_NoDup (delete key m).
Proof. intros Hm k nodes [_ ?]%lookup_delete_Some. by eapply Hm. Qed.

(** Reading a node list off the cache is reading the view. *)
Lemma elems_nodesOf st i namespace name :
  elems (h_strings (heap st)) (eval (nodesOf (index_field i) namespace name) st)
  = nodes_at (nodes_view st i) (Sprintf namespace name).
Proof.
  unfold eval, nodesOf, Load, nodes_at, nodes_view, mbind, M_bind, mret, M_ret. simpl.
  rewrite lookup_fmap. change (f_get (index_field i) (lc st)) with (table i (lc st)).
  destruct (table i (lc st) !! Sprintf namespace name) as [[]|]; done.
Qed.

Lemma exec_nodesOf st f namespace name : exec (nodesOf f namespace name) st = st.
Proof. done. Qed.

Lemma Inv_same st st' :
  (∀ i, table i (lc st') = table i (lc st)) →
  h_strings (heap st') = h_strings (heap st) →
  Inv st → Inv st'.
Proof.
  intros Ht Hh [Hok Hnd]. split.
  - eapply cache_ok_sub; [|done|done]. intros i key v. by rewrite Ht.
  - intros i. by rewrite (nodes_view_same st st' i).
Qed.

Section Calls.
Variable growslice : nat → nat → nat.

Lemma perform_Inv c st : Inv st → Inv (exec (perform growslice c) st).
Proof.
  intros [Hok Hnd]. destruct c as [pod|ns name|ns name|n|n|e|e]; simpl.
  - destruct (AddOrUpdatePod_spec growslice st pod Hok) as (Hok' & Hc & Hs & _).
    split; [done|]. intros []; [rewrite Hc | rewrite Hs];
      apply addNodes_view_NoDup, Hnd.
  - destruct (Delete_index_spec st ConfigMapIndex (Sprintf ns name)) as (Hok' & Hv & _).
    split; [by apply Hok'|]. intros j. rewrite Hv.
    destruct (decide _); [apply all_NoDup_delete|]; apply Hnd.
  - destruct (Delete_index_spec st SecretIndex (Sprintf ns name)) as (Hok' & Hv & _).
    split; [by apply Hok'|]. intros j. rewrite Hv.
    destruct (decide _); [apply all_NoDup_delete|]; apply Hnd.
  - by apply (Inv_same st); [intros []| |].
  - by apply (Inv_same st); [intros []| |].
  - by apply (Inv_same st); [intros []| |].
  - by apply (Inv_same st); [intros []| |].
Qed.

Lemma range_perform_Inv calls st :
  Inv st → Inv (exec (range calls (perform growslice)) st).
Proof.
  revert st. induction calls as [|c calls IH]; intros st HI; [done|].
  rewrite exec_range_cons. by apply IH, perform_Inv.
Qed.

Lemma Inv_initial h : Inv (initial h).
Proof.
  split; [apply cache_ok_initial|].
  intros [] key nodes; unfold nodes_view, table; simpl;
    by rewrite fmap_empty, lookup_empty.
Qed.

Lemma after_Inv calls h : Inv (after growslice calls h).
Proof. apply range_perform_Inv, Inv_initial. Qed.

Lemma range_AddOrUpdatePod_perform pods st :
  exec (range pods (AddOrUpdatePod growslice)) st
  = exec (range (CallAddOrUpdatePod <$> pods) (perform growslice)) st.
Proof.
  revert st. induction pods as [|pod pods IH]; intros st; [done|].
  rewrite fmap_cons, !exec_range_cons. apply IH.
Qed.

(** C1.  After any sequence of calls on a cache created empty, calling
    [AddOrUpdatePod] any number of times (at least once) for a pod that
    references config map [c] leaves the pod's node exactly once in the list
    [ConfigMapNodes] returns for [c]; and after any sequence of calls every
    value of the config-map and secret indices is a node list without
    duplicates. *)
Theorem node_lists_have_no_duplicates :
  (∀ calls h pod c n,
     c ∈ (PodConfigMapsAndSecrets pod).1 →
     let st' := exec (range (replicate (S n) pod) (AddOrUpdatePod growslice))
                  (after growslice calls h) in
     occurrences (v1.NodeName (v1.Spec pod))
       (elems (h_strings (heap st'))
          (eval (ConfigMapNodes (v1.Namespace (v1.pod_ObjectMeta pod)) c) st')) = 1)
  ∧ (∀ calls h i key v,
       let st := after growslice calls h in
       table i (lc st) !! key = Some v →
       ∃ nodes, v = AnyStrings nodes ∧ NoDup (elems (h_strings (heap st)) nodes)).
Proof.
  split.
  - intros calls h pod c n Hc st'. subst st'.
    rewrite replicate_S_end, exec_range_app.
    set (st1 := exec (range (replicate n pod) _) _).
    assert (Inv st1) as [Hok1 Hnd1].
    { unfold st1. rewrite range_AddOrUpdatePod_perform.
      apply range_perform_Inv, after_Inv. }
    rewrite exec_range_cons.
    change (exec (range [] (AddOrUpdatePod growslice)) ?s) with s.
    destruct (AddOrUpdatePod_spec growslice st1 pod Hok1) as (Hok' & Hv & _ & _).
    unfold ConfigMapNodes.
    rewrite (elems_nodesOf _ ConfigMapIndex), Hv.
    apply occurrences_NoDup.
    + pose proof (addNodes_view_NoDup (v1.Namespace (v1.pod_ObjectMeta pod))
                    (v1.NodeName (v1.Spec pod)) (PodConfigMapsAndSecrets pod).1
                    _ (Hnd1 ConfigMapIndex)) as Hnd.
      unfold nodes_at. destruct (_ !! _) eqn:E; simpl; [by eapply Hnd|apply NoDup_nil_2].
    + by apply addNodes_view_elem.
  - intros calls h i key v st Hv.
    destruct (after_Inv calls h) as [Hok Hnd].
    destruct (ok_strings _ Hok _ _ _ Hv) as [s ->]. exists s. split; [done|].
    apply (Hnd i key). unfold nodes_view. rewrite lookup_fmap.
    fold st. by rewrite Hv.
Qed.
End Calls.

(** * Deleting a config map or a secret *)

(** C6.  After [DeleteConfigMap] (resp. [DeleteSecret]) of a key,
    [ConfigMapNodes] (resp. [SecretNodes]) returns the nil slice for that
    key, whatever was stored before; the query leaves the cache as it is, so
    every later query returns the same. *)
Theorem deleted_key_has_no_nodes st namespace name :
  (let st' := exec (DeleteConfigMap namespace name) st in
   eval (ConfigMapNodes namespace name) st' = nil_slice
   ∧ elems (h_strings (heap st')) (eval (ConfigMapNodes namespace name) st') = []
   ∧ exec (ConfigMapNodes namespace name) st' = st')
  ∧ (let st' := exec (DeleteSecret namespace name) st in
     eval (SecretNodes namespace name) st' = nil_slice
     ∧ elems (h_strings (heap st')) (eval (SecretNodes namespace name) st') = []
     ∧ exec (SecretNodes namespace name) st' = st').
Proof.
  split; cbv zeta.
  - assert (eval (ConfigMapNodes namespace name)
              (exec (DeleteConfigMap namespace name) st) = nil_slice) as ->; [|done].
    unfold eval, exec, ConfigMapNodes, nodesOf, DeleteConfigMap, Delete, Load,
      mbind, M_bind, mret, M_ret. simpl. by rewrite lookup_delete_eq.
  - assert (eval (SecretNodes namespace name)
              (exec (DeleteSecret namespace name) st) = nil_slice) as ->; [|done].
    unfold eval, exec, SecretNodes, nodesOf, DeleteSecret, Delete, Load,
      mbind, M_bind, mret, M_ret. simpl. by rewrite lookup_delete_eq.
Qed.

(** * Edge nodes *)

Section EdgeNodes.
Variable growslice : nat → nat → nat.

Lemma perform_EdgeNodes c st :
  cache_ok st →
  EdgeNodes (lc (exec (perform growslice c) st)) =
  match c with
  | CallUpdateEdgeNode n => <[n := AnyStruct]> (EdgeNodes (lc st))
  | CallDeleteNode n => delete n (EdgeNodes (lc st))
  | _ => EdgeNodes (lc st)
  end.
Proof.
  intros Hok. destruct c; try done.
  destruct (AddOrUpdatePod_spec growslice st pod Hok) as (_ & _ & _ & []). done.
Qed.

Lemma never_updated_not_edge calls st nodeName :
  Inv st → CallUpdateEdgeNode nodeName ∉ calls →
  EdgeNodes (lc st) !! nodeName = None →
  EdgeNodes (lc (exec (range calls (perform growslice)) st)) !! nodeName = None.
Proof.
  revert st. induction calls as [|c calls IH]; intros st HI Hn Hst; [done|].
  apply not_elem_of_cons in Hn as [Hc Hn].
  rewrite exec_range_cons. apply IH; [by apply perform_Inv | done |].
  rewrite perform_EdgeNodes by apply HI.
  destruct c as [| | |n|n| |]; try done.
  - rewrite lookup_insert_ne; [done | congruence].
  - rewrite lookup_delete_None. by right.
Qed.

(** C7.  [IsEdgeNode n] is false after any sequence of calls that has no
    [UpdateEdgeNode n], true right after [UpdateEdgeNode n], false right
    after [DeleteNode n]; and [DeleteNode] of a name that is not an edge
    node leaves the cache unchanged. *)
Theorem edge_node_membership nodeName :
  (∀ calls h, CallUpdateEdgeNode nodeName ∉ calls →
     eval (IsEdgeNode nodeName) (after growslice calls h) = false)
  ∧ (∀ st, eval (IsEdgeNode nodeName) (exec (UpdateEdgeNode nodeName) st) = true)
  ∧ (∀ st, eval (IsEdgeNode nodeName) (exec (DeleteNode nodeName) st) = false)
  ∧ (∀ st, eval (IsEdgeNode nodeName) st = false → exec (DeleteNode nodeName) st = st).
Proof.
  split; [|split; [|split]].
  - intros calls h Hn.
    pose proof (never_updated_not_edge calls (initial h) nodeName
                  (Inv_initial h) Hn (lookup_empty _)) as H.
    unfold eval, IsEdgeNode, Load, mbind, M_bind, mret, M_ret. simpl.
    unfold after. by rewrite H.
  - intros st. unfold eval, exec, IsEdgeNode, UpdateEdgeNode, Store, Load,
      mbind, M_bind, mret, M_ret. simpl. by rewrite lookup_insert_eq.
  - intros st. unfold eval, exec, IsEdgeNode, DeleteNode, Delete, Load,
      mbind, M_bind, mret, M_ret. simpl. by rewrite lookup_delete_eq.
  - intros [h [E c s e]]. unfold eval, exec, IsEdgeNode, DeleteNode, Delete, Load,
      mbind, M_bind, mret, M_ret. simpl.
    destruct (E !! nodeName) eqn:HE; [done|]. intros _.
    by rewrite delete_id.
Qed.
End EdgeNodes.

(** * Endpoints *)

(** C5.  When the cache holds no endpoints snapshot under the key of [e],
    [IsEndpointsUpdated e] is true, whatever [e] contains. *)
Theorem unknown_endpoints_are_updated st e :
  snapshot st (endpointsKey e) = None → eval (IsEndpointsUpdated e) st = true.
Proof.
  unfold snapshot, eval, IsEndpointsUpdated, Load, mbind, M_bind, mret, M_ret. simpl.
  destruct (endpoints (lc st) !! endpointsKey e) as [[]|]; done.
Qed.

Lemma length_elems_wf {A} (arrs : gmap loc (list A)) s :
  slice_wf arrs s → length (elems arrs s) = s_len s.
Proof.
  unfold slice_wf, elems. destruct (s_ptr s) as [l|].
  - intros (Hle & a & Ha & Hc). unfold lookup_total, map_lookup_total.
    rewrite Ha. simpl. rewrite length_take. lia.
  - by intros [-> _].
Qed.

Lemma DeepEqual_slice_content {A} `{EqDecision A} (arrs : gmap loc (list A)) x y :
  slice_wf arrs x → slice_wf arrs y →
  content_slice arrs x = content_slice arrs y → DeepEqual_slice arrs x y = true.
Proof.
  intros Hx Hy Hc. unfold DeepEqual_slice.
  assert (is_nil x = is_nil y ∧ elems arrs x = elems arrs y) as [Hn He].
  { unfold content_slice, is_nil, elems in *.
    destruct (s_ptr x), (s_ptr y); try done. split; congruence. }
  assert (s_len x = s_len y) as Hl.
  { by rewrite <- (length_elems_wf arrs x), <- (length_elems_wf arrs y), He. }
  rewrite (bool_decide_eq_true_2 _ Hn), (bool_decide_eq_true_2 _ Hl). simpl.
  destruct (bool_decide (s_ptr x = s_ptr y)); [done|].
  by apply bool_decide_eq_true_2.
Qed.

Lemma DeepEqual_map_content h x y :
  content_map h x = content_map h y → DeepEqual_map h x y = true.
Proof.
  unfold content_map, DeepEqual_map. destruct x as [a|], y as [b|]; try done.
  simpl. intros [= ->]. rewrite bool_decide_eq_true_2 by done. simpl.
  destruct (bool_decide (a = b)); [done|].
  apply bool_decide_eq_true_2. by intros k v.
Qed.

Lemma DeepEqual_pointer_content {A} `{EqDecision A} `{Inhabited A}
    (cells : gmap loc A) x y :
  content_pointer cells x = content_pointer cells y →
  DeepEqual_pointer cells x y = true.
Proof.
  unfold content_pointer, DeepEqual_pointer. destruct x as [a|], y as [b|]; try done.
  simpl. intros [= ->]. destruct (bool_decide (a = b)); [done|].
  by apply bool_decide_eq_true_2.
Qed.

(** C2.  When the cache holds a snapshot under the key of [new] and [new]
    has the same value as the snapshot in everything but the resource
    version, the generation and the annotations, [IsEndpointsUpdated new]
    is false. *)
Theorem churn_is_no_update st old new :
  endpoints (lc st) !! endpointsKey new = Some (AnyEndpoints old) →
  Endpoints_wf (heap st) old → Endpoints_wf (heap st) new →
  content_ObjectMeta (heap st) (withoutChurn (v1.ObjectMeta_ old))
  = content_ObjectMeta (heap st) (withoutChurn (v1.ObjectMeta_ new)) →
  content_slice (h_subsets (heap st)) (v1.Subsets old)
  = content_slice (h_subsets (heap st)) (v1.Subsets new) →
  eval (IsEndpointsUpdated new) st = false.
Proof.
  intros Hold (Ho1 & Ho2 & Ho4 & Ho3) (Hn1 & Hn2 & Hn4 & Hn3) Hmeta Hsub.
  unfold eval, IsEndpointsUpdated, Load, get_heap, mbind, M_bind, mret, M_ret. simpl.
  rewrite Hold. simpl.
  unfold content_ObjectMeta, withoutChurn in Hmeta. simpl in Hmeta.
  injection Hmeta as HName HGen HNs HSelf HUID HCre HDel HGrace HLab HOwn HInit
    HFin HCl HMan.
  rewrite (DeepEqual_slice_content _ _ _ Ho3 Hn3 Hsub).
  unfold DeepEqual_ObjectMeta, maskChurn. simpl.
  rewrite !bool_decide_eq_true_2 by done.
  rewrite (DeepEqual_pointer_content _ _ _ HDel), (DeepEqual_pointer_content _ _ _ HGrace),
    (DeepEqual_map_content _ _ _ HLab), (DeepEqual_map_content _ _ _ (eq_refl _)),
    (DeepEqual_slice_content _ _ _ Ho1 Hn1 HOwn),
    (DeepEqual_slice_content _ _ _ Ho2 Hn2 HFin),
    (DeepEqual_slice_content _ _ _ Ho4 Hn4 HMan).
  done.
Qed.

Section Alias.
Variable growslice : nat → nat → nat.


End Alias.


(** * The stored endpoints *)

(** C9, amended.  [AddOrUpdateEndpoints] stores the struct it is given,
    references included, and leaves the heap alone.  An assignment to a field
    of the caller's object leaves the stored snapshot as it was; a write
    through a reference of the object (a label, an annotation, a subset)
    leaves the snapshot equal to the caller's object as it now is. *)
Theorem stored_snapshot_is_a_shallow_copy st e mu e' st2 :
  let st1 := exec (AddOrUpdateEndpoints e) st in
  mutate mu e st1 = Some (e', st2) →
  heap st1 = heap st
  ∧ endpoints (lc st1) !! endpointsKey e = Some (AnyEndpoints e)
  ∧ snapshot st2 (endpointsKey e) = Some (content_Endpoints (heap st2) e)
  ∧ (is_field_assignment mu = true →
       snapshot st2 (endpointsKey e) = snapshot st1 (endpointsKey e))
  ∧ (is_field_assignment mu = false → e' = e).
Proof.
  intros st1 Hmu.
  assert (endpoints (lc st1) !! endpointsKey e = Some (AnyEndpoints e)) as Hst
    by apply lookup_insert_eq.
  assert (lc st2 = lc st1 ∧ (is_field_assignment mu = true → st2 = st1)
          ∧ (is_field_assignment mu = false → e' = e)) as (Hlc & Hfa & Hw).
  { destruct mu; simpl in Hmu.
    - by injection Hmu as <- <-.
    - by injection Hmu as <- <-.
    - unfold put_map in Hmu. destruct (v1.Labels _); [|done].
      by injection Hmu as <- <-.
    - unfold put_map in Hmu. destruct (v1.Annotations _); [|done].
      by injection Hmu as <- <-.
    - destruct (s_ptr _); [|done]. destruct (decide _); [|done].
      by injection Hmu as <- <-. }
  split; [done|]. split; [done|]. split; [|split; [|done]].
  - unfold snapshot. by rewrite Hlc, Hst.
  - by intros ->%Hfa.
Qed.

(** C9 as stated fails: setting a label of the caller's object after storing
    it changes the stored snapshot. *)
Lemma stored_snapshot_is_not_a_deep_copy :
  ¬ stored_snapshot_is_a_deep_copy (initial labelled_heap) labelled_endpoints
      (PutLabel "app" "db").
Proof.
  intros H. unfold stored_snapshot_is_a_deep_copy in H.
  destruct (mutate _ _ _) as [[e' st2]|] eqn:E.
  - specialize (H e' st2 eq_refl). vm_compute in E. injection E as <- <-.
    vm_compute in H. discriminate.
  - vm_compute in E. discriminate.
Qed.

Section Threads.
Variable growslice : nat → nat → nat.

Lemma exec_range_fmap {A B} (f : A → B) (g : B → M unit) xs st :
  exec (range (f <$> xs) g) st = exec (range xs (g ∘ f)) st.
Proof.
  revert st. induction xs as [|x xs IH]; intros st; [done|].
  rewrite fmap_cons, !exec_range_cons. apply IH.
Qed.

Lemma exec_bind {A B} (c : M A) (k : M B) st :
  exec (_ ← c; k) st = exec k (exec c st).
Proof. unfold exec, mbind, M_bind. by destruct (c st). Qed.

Lemma AddOrUpdatePod_work pod st :
  exec (AddOrUpdatePod growslice pod) st = exec (range (work_of pod) (work_step growslice pod)) st.
Proof.
  unfold AddOrUpdatePod, work_of.
  destruct (PodConfigMapsAndSecrets pod) as [configMaps secrets].
  rewrite exec_range_app, !exec_range_fmap, exec_bind.
  reflexivity.
Qed.

Lemma run_schedule_step tid rest pool st pod t :
  pool !! tid = Some (pod, t) →
  run_schedule growslice (tid :: rest) pool st
  = run_schedule growslice rest
      (<[tid := (pod, (thread_step growslice pod t st).1)]> pool)
      (thread_step growslice pod t st).2.
Proof.
  intros H. simpl. rewrite H. unfold mbind, M_bind.
  by destruct (thread_step growslice pod t st).
Qed.

Lemma thread_step_Loading pod i name work st :
  thread_step growslice pod (Loading ((i, name) :: work)) st
  = (Storing i name
       (f_get (index_field i) (lc st)
          !! Sprintf (v1.Namespace (v1.pod_ObjectMeta pod)) name) work, st).
Proof. reflexivity. Qed.

Lemma thread_step_Storing pod i name value work st :
  thread_step growslice pod (Storing i name value work) st
  = (Loading work, exec (storeNodes growslice (index_field i) pod name value) st).
Proof.
  unfold thread_step, exec, mbind, M_bind.
  by destruct (storeNodes growslice (index_field i) pod name value st).
Qed.

Lemma run_thread tid pod work rest pool st :
  pool !! tid = Some (pod, Loading work) →
  run_schedule growslice (replicate (2 * length work) tid ++ rest) pool st
  = run_schedule growslice rest (<[tid := (pod, Loading [])]> pool)
      (exec (range work (work_step growslice pod)) st).
Proof.
  revert pool st. induction work as [|[i name] work IH]; intros pool st Hpool.
  - simpl. by rewrite list_insert_id.
  - replace (2 * length ((i, name) :: work)) with (S (S (2 * length work)))
      by (simpl; lia).
    pose proof (lookup_lt_Some _ _ _ Hpool) as Hlt.
    rewrite exec_range_cons.
    change (replicate (S (S (2 * length work))) tid ++ rest)
      with (tid :: tid :: (replicate (2 * length work) tid ++ rest)).
    rewrite (run_schedule_step _ _ _ _ _ _ Hpool), thread_step_Loading.
    cbn [fst snd].
    rewrite (run_schedule_step tid _ _ _ pod (Storing i name
               (f_get (index_field i) (lc st)
                  !! Sprintf (v1.Namespace (v1.pod_ObjectMeta pod)) name) work))
      by (by apply list_lookup_insert_eq).
    rewrite thread_step_Storing. cbn [fst snd].
    rewrite list_insert_insert_eq.
    rewrite IH by (by apply list_lookup_insert_eq).
    by rewrite list_insert_insert_eq.
Qed.

Lemma run_sequential pods before st :
  run_schedule growslice (sequential (length before) pods)
    (before ++ (start <$> pods)) st
  = (before ++ ((λ pod, (pod, Loading [])) <$> pods),
     exec (range pods (AddOrUpdatePod growslice)) st).
Proof.
  revert before st. induction pods as [|pod pods IH]; intros before st; [done|].
  simpl sequential. rewrite fmap_cons.
  rewrite (run_thread _ pod (work_of pod)) by (by apply list_lookup_middle).
  rewrite insert_app_r_alt, Nat.sub_diag by done.
  change (<[0 := ?x]> (?y :: ?l)) with (x :: l).
  rewrite exec_range_cons, AddOrUpdatePod_work, fmap_cons.
  rewrite (cons_middle _ before), (cons_middle _ before), !app_assoc.
  replace (S (length before)) with (length (before ++ [(pod, Loading [])]))
    by (rewrite length_app; simpl; lia).
  apply IH.
Qed.

Lemma range_AddOrUpdatePod_mono pods st i key x :
  cache_ok st →
  x ∈ nodes_at (nodes_view st i) key →
  x ∈ nodes_at (nodes_view (exec (range pods (AddOrUpdatePod growslice)) st) i) key.
Proof.
  revert st. induction pods as [|pod pods IH]; intros st Hok Hx; [done|].
  rewrite exec_range_cons.
  destruct (AddOrUpdatePod_spec growslice st pod Hok) as (Hok' & Hc & Hs & _).
  apply IH; [done|].
  destruct i; [rewrite Hc | rewrite Hs]; by apply addNodes_view_mono.
Qed.

Lemma range_AddOrUpdatePod_elem pods st namespace c pod :
  cache_ok st → pod ∈ pods →
  v1.Namespace (v1.pod_ObjectMeta pod) = namespace →
  c ∈ (PodConfigMapsAndSecrets pod).1 →
  v1.NodeName (v1.Spec pod)
  ∈ nodes_at (nodes_view (exec (range pods (AddOrUpdatePod growslice)) st)
                ConfigMapIndex) (Sprintf namespace c).
Proof.
  revert st. induction pods as [|p pods IH]; intros st Hok Hin Hns Hc.
  - by apply elem_of_nil in Hin.
  - rewrite exec_range_cons.
    destruct (AddOrUpdatePod_spec growslice st p Hok) as (Hok' & Hv & _ & _).
    apply elem_of_cons in Hin as [<-|Hin]; [|by apply IH].
    apply range_AddOrUpdatePod_mono; [done|].
    rewrite Hv, <- Hns. by apply addNodes_view_elem.
Qed.

(** C3, amended.  When the calls of [AddOrUpdatePod] for pods that all
    reference config map [c] run one after the other (the sequential
    schedule, the pods in any order), every call finishes, the cache is the
    one the calls made in sequence leave, and the list of [c] holds the node
    of every pod. *)
Theorem sequential_inserts_are_kept calls h pods namespace c :
  (∀ pod, pod ∈ pods →
     v1.Namespace (v1.pod_ObjectMeta pod) = namespace
     ∧ c ∈ (PodConfigMapsAndSecrets pod).1) →
  let result := run_schedule growslice (sequential 0 pods) (start <$> pods)
                  (after growslice calls h) in
  result.2 = exec (range pods (AddOrUpdatePod growslice)) (after growslice calls h)
  ∧ (∀ t, t ∈ result.1 → finished t = true)
  ∧ ∀ pod, pod ∈ pods →
      v1.NodeName (v1.Spec pod)
      ∈ elems (h_strings (heap result.2)) (eval (ConfigMapNodes namespace c) result.2).
Proof.
  intros Hpods result. unfold result.
  pose proof (run_sequential pods [] (after growslice calls h)) as E.
  change (length []) with 0 in E. rewrite !app_nil_l in E. rewrite E. simpl.
  split; [done|]. split.
  - intros t (pod & -> & _)%list_elem_of_fmap. done.
  - intros pod Hin. destruct (Hpods pod Hin) as [Hns Hc].
    unfold ConfigMapNodes. rewrite (elems_nodesOf _ ConfigMapIndex).
    apply range_AddOrUpdatePod_elem; try done. apply after_Inv.
Qed.
End Threads.

(** C3 as stated fails: with two pods on two nodes and the schedule in which
    both calls load before either stores, both calls finish and the list of
    the config map holds the second node only. *)
Lemma an_insert_is_lost :
  ¬ no_insert_is_lost double [config_pod "node1"; config_pod "node2"] "ns" "cfg"
      [0; 1; 0; 1] empty_heap.
Proof.
  intros H. unfold no_insert_is_lost in H.
  assert ("node1" ∈ ["node2"]) as Hin.
  { eapply (H _ _ _ (config_pod "node1")). Unshelve.
    - apply elem_of_cons. by left.
    - apply NoDup_cons. split; [|apply NoDup_singleton].
      by intros [=]%list_elem_of_singleton.
    - intros pod [->| ->%list_elem_of_singleton]%elem_of_cons;
        (split; [done | apply elem_of_cons; by left]).
    - intros t Ht. vm_compute in Ht.
      apply elem_of_cons in Ht as [->| ->%list_elem_of_singleton]; done. }
  by apply list_elem_of_singleton in Hin.
Qed.

(** * More on the extraction *)

Lemma foldl_additive {A} (f : names → A → names) (g1 g2 : A → list string) xs :
  (∀ acc x, f acc x = (acc.1 ++ g1 x, acc.2 ++ g2 x)) →
  ∀ acc, foldl f acc xs = (acc.1 ++ (xs ≫= g1), acc.2 ++ (xs ≫= g2)).
Proof.
  intros Hf. induction xs as [|x xs IH]; intros acc; simpl.
  - rewrite !app_nil_r. by destruct acc.
  - rewrite IH, Hf. simpl. by rewrite !app_assoc.
Qed.

Lemma fromSource_additive acc source :
  fromSource acc source = (acc.1 ++ source_configMaps source, acc.2 ++ source_secrets source).
Proof.
  unfold fromSource, source_configMaps, source_secrets.
  destruct acc, (v1.vp_ConfigMap source), (v1.vp_Secret source);
    simpl; by rewrite ?app_nil_r.
Qed.

Lemma fromVolume_additive acc v :
  fromVolume acc v = (acc.1 ++ volume_configMaps v, acc.2 ++ volume_secrets v).
Proof.
  unfold fromVolume, volume_configMaps, volume_secrets.
  destruct acc, (v1.vol_ConfigMap v), (v1.vol_Secret v), (v1.vol_Projected v);
    simpl; rewrite ?(foldl_additive _ _ _ _ fromSource_additive); simpl;
    by rewrite ?app_nil_r, <- ?app_assoc.
Qed.

Lemma fromEnvFrom_additive acc ef :
  fromEnvFrom acc ef = (acc.1 ++ envFrom_configMaps ef, acc.2 ++ envFrom_secrets ef).
Proof.
  unfold fromEnvFrom, envFrom_configMaps, envFrom_secrets.
  destruct acc, (v1.efs_ConfigMapRef ef), (v1.efs_SecretRef ef);
    simpl; by rewrite ?app_nil_r.
Qed.

Lemma fromEnv_additive acc e :
  fromEnv acc e = (acc.1 ++ env_configMaps e, acc.2 ++ env_secrets e).
Proof.
  unfold fromEnv, env_configMaps, env_secrets.
  destruct acc, (v1.ev_ValueFrom e) as [vf|]; simpl; [|by rewrite !app_nil_r].
  destruct (v1.evs_ConfigMapKeyRef vf), (v1.evs_SecretKeyRef vf);
    simpl; by rewrite ?app_nil_r.
Qed.

Lemma fromContainer_additive acc s :
  fromContainer acc s = (acc.1 ++ container_configMaps s, acc.2 ++ container_secrets s).
Proof.
  unfold fromContainer, container_configMaps, container_secrets.
  rewrite (foldl_additive _ _ _ _ fromEnv_additive),
    (foldl_additive _ _ _ _ fromEnvFrom_additive). simpl.
  by rewrite <- !app_assoc.
Qed.

Lemma foldl_fromImagePullSecret acc pull :
  foldl fromImagePullSecret acc pull = (acc.1, acc.2 ++ (v1.lor_Name <$> pull)).
Proof.
  revert acc. induction pull as [|s pull IH]; intros acc; simpl.
  - rewrite app_nil_r. by destruct acc.
  - rewrite IH. simpl. by rewrite <- app_assoc.
Qed.

Lemma extraction_eq pod :
  PodConfigMapsAndSecrets pod = (configMapsOf pod, secretsOf pod).
Proof.
  unfold PodConfigMapsAndSecrets, configMapsOf, secretsOf.
  rewrite foldl_fromImagePullSecret,
    (foldl_additive _ _ _ _ fromContainer_additive),
    (foldl_additive _ _ _ _ fromVolume_additive). simpl.
  by rewrite <- app_assoc.
Qed.

(** X1.  [PodConfigMapsAndSecrets] returns, in this order, what each volume
    names (its own reference, then its projected sources), then what each
    container names (its [envFrom] entries, then its [env] entries); the
    secrets end with the image-pull secrets, in their order. *)
Theorem extraction_in_order pod :
  PodConfigMapsAndSecrets pod = (configMapsOf pod, secretsOf pod)
  ∧ ∃ before, (PodConfigMapsAndSecrets pod).2
              = before ++ (v1.lor_Name <$> v1.ImagePullSecrets (v1.Spec pod)).
Proof.
  split; [apply extraction_eq|].
  rewrite extraction_eq. unfold secretsOf. simpl.
  eexists. by rewrite app_assoc.
Qed.

Lemma elem_of_opt_name {A} (name : A → string) (ref : option A) x :
  x ∈ opt_name name ref ↔ ∃ r, ref = Some r ∧ name r = x.
Proof.
  destruct ref as [r|]; simpl.
  - rewrite list_elem_of_singleton. split.
    + intros ->. eauto.
    + by intros (? & [= <-] & <-).
  - rewrite elem_of_nil. split; [done | by intros (? & ? & _)].
Qed.

(** X2.  A name is among the config maps [PodConfigMapsAndSecrets] returns
    exactly when a volume mounts that config map, a projected source names
    it, an [envFrom] entry refers to it, or the value source of an [env]
    entry has a [configMapKeyRef] to it. *)
Theorem extracted_config_maps pod c :
  c ∈ (PodConfigMapsAndSecrets pod).1 ↔
    (∃ v r, v ∈ v1.Volumes (v1.Spec pod)
            ∧ v1.vol_ConfigMap v = Some r ∧ v1.cmvs_Name r = c)
    ∨ (∃ v p source r, v ∈ v1.Volumes (v1.Spec pod)
            ∧ v1.vol_Projected v = Some p ∧ source ∈ v1.pvs_Sources p
            ∧ v1.vp_ConfigMap source = Some r ∧ v1.cmp_Name r = c)
    ∨ (∃ s ef r, s ∈ v1.Containers (v1.Spec pod) ∧ ef ∈ v1.c_EnvFrom s
            ∧ v1.efs_ConfigMapRef ef = Some r ∧ v1.cmes_Name r = c)
    ∨ (∃ s e vf r, s ∈ v1.Containers (v1.Spec pod) ∧ e ∈ v1.c_Env s
            ∧ v1.ev_ValueFrom e = Some vf
            ∧ v1.evs_ConfigMapKeyRef vf = Some r ∧ v1.cmks_Name r = c).
Proof.
  rewrite extraction_eq. simpl. unfold configMapsOf.
  rewrite elem_of_app, !list_elem_of_bind. split.
  - intros [(v & Hc & Hv)|(s & Hc & Hs)].
    + unfold volume_configMaps in Hc. apply elem_of_app in Hc as [Hc|Hc].
      * apply elem_of_opt_name in Hc as (r & ? & ?). left. eauto.
      * destruct (v1.vol_Projected v) as [p|] eqn:Hp; [|by apply elem_of_nil in Hc].
        apply list_elem_of_bind in Hc as (source & Hc & Hsrc).
        apply elem_of_opt_name in Hc as (r & ? & ?). right; left. eauto 10.
    + unfold container_configMaps in Hc. apply elem_of_app in Hc as [Hc|Hc];
        apply list_elem_of_bind in Hc as (x & Hc & Hx).
      * apply elem_of_opt_name in Hc as (r & ? & ?). right; right; left. eauto 10.
      * unfold env_configMaps in Hc.
        destruct (v1.ev_ValueFrom x) as [vf|] eqn:Hvf; [|by apply elem_of_nil in Hc].
        apply elem_of_opt_name in Hc as (r & ? & ?). right; right; right. eauto 10.
  - intros [(v & r & Hv & Hr & <-)|[(v & p & source & r & Hv & Hp & Hsrc & Hr & <-)
           |[(s & ef & r & Hs & Hef & Hr & <-)|(s & e & vf & r & Hs & He & Hvf & Hr & <-)]]].
    + left. exists v. split; [|done]. unfold volume_configMaps.
      apply elem_of_app. left. apply elem_of_opt_name. eauto.
    + left. exists v. split; [|done]. unfold volume_configMaps.
      apply elem_of_app. right. rewrite Hp. apply list_elem_of_bind.
      exists source. split; [|done]. apply elem_of_opt_name. eauto.
    + right. exists s. split; [|done]. unfold container_configMaps.
      apply elem_of_app. left. apply list_elem_of_bind.
      exists ef. split; [|done]. apply elem_of_opt_name. eauto.
    + right. exists s. split; [|done]. unfold container_configMaps.
      apply elem_of_app. right. apply list_elem_of_bind.
      exists e. split; [|done]. unfold env_configMaps. rewrite Hvf.
      apply elem_of_opt_name. eauto.
Qed.

(** X3.  A name is among the secrets [PodConfigMapsAndSecrets] returns
    exactly when a volume mounts that secret, a projected source without
    config map names it, an [envFrom] entry refers to it, the value source
    of an [env] entry without [configMapKeyRef] has a [secretKeyRef] to it,
    or it is an image-pull secret. *)
Theorem extracted_secrets pod x :
  x ∈ (PodConfigMapsAndSecrets pod).2 ↔
    (∃ v r, v ∈ v1.Volumes (v1.Spec pod)
            ∧ v1.vol_Secret v = Some r ∧ v1.svs_SecretName r = x)
    ∨ (∃ v p source r, v ∈ v1.Volumes (v1.Spec pod)
            ∧ v1.vol_Projected v = Some p ∧ source ∈ v1.pvs_Sources p
            ∧ v1.vp_ConfigMap source = None
            ∧ v1.vp_Secret source = Some r ∧ v1.sp_Name r = x)
    ∨ (∃ s ef r, s ∈ v1.Containers (v1.Spec pod) ∧ ef ∈ v1.c_EnvFrom s
            ∧ v1.efs_SecretRef ef = Some r ∧ v1.ses_Name r = x)
    ∨ (∃ s e vf r, s ∈ v1.Containers (v1.Spec pod) ∧ e ∈ v1.c_Env s
            ∧ v1.ev_ValueFrom e = Some vf ∧ v1.evs_ConfigMapKeyRef vf = None
            ∧ v1.evs_SecretKeyRef vf = Some r ∧ v1.sks_Name r = x)
    ∨ (∃ r, r ∈ v1.ImagePullSecrets (v1.Spec pod) ∧ v1.lor_Name r = x).
Proof.
  rewrite extraction_eq. simpl. unfold secretsOf.
  rewrite !elem_of_app, !list_elem_of_bind, list_elem_of_fmap. split.
  - intros [(v & Hc & Hv)|[(s & Hc & Hs)|(r & -> & Hr)]].
    + unfold volume_secrets in Hc. apply elem_of_app in Hc as [Hc|Hc].
      * apply elem_of_opt_name in Hc as (r & ? & ?). left. eauto.
      * destruct (v1.vol_Projected v) as [p|] eqn:Hp; [|by apply elem_of_nil in Hc].
        apply list_elem_of_bind in Hc as (source & Hc & Hsrc).
        unfold source_secrets in Hc.
        destruct (v1.vp_ConfigMap source) eqn:Hcm; [by apply elem_of_nil in Hc|].
        apply elem_of_opt_name in Hc as (r & ? & ?). right; left. eauto 10.
    + unfold container_secrets in Hc. apply elem_of_app in Hc as [Hc|Hc];
        apply list_elem_of_bind in Hc as (y & Hc & Hy).
      * apply elem_of_opt_name in Hc as (r & ? & ?). right; right; left. eauto 10.
      * unfold env_secrets in Hc.
        destruct (v1.ev_ValueFrom y) as [vf|] eqn:Hvf; [|by apply elem_of_nil in Hc].
        destruct (v1.evs_ConfigMapKeyRef vf) eqn:Hcm; [by apply elem_of_nil in Hc|].
        apply elem_of_opt_name in Hc as (r & ? & ?).
        right; right; right; left. eauto 10.
    + do 4 right. eauto.
  - intros [(v & r & Hv & Hr & <-)
           |[(v & p & source & r & Hv & Hp & Hsrc & Hcm & Hr & <-)
           |[(s & ef & r & Hs & Hef & Hr & <-)
           |[(s & e & vf & r & Hs & He & Hvf & Hcm & Hr & <-)|(r & Hr & <-)]]]].
    + left. exists v. split; [|done]. unfold volume_secrets.
      apply elem_of_app. left. apply elem_of_opt_name. eauto.
    + left. exists v. split; [|done]. unfold volume_secrets.
      apply elem_of_app. right. rewrite Hp. apply list_elem_of_bind.
      exists source. split; [|done]. unfold source_secrets. rewrite Hcm.
      apply elem_of_opt_name. eauto.
    + right; left. exists s. split; [|done]. unfold container_secrets.
      apply elem_of_app. left. apply list_elem_of_bind.
      exists ef. split; [|done]. apply elem_of_opt_name. eauto.
    + right; left. exists s. split; [|done]. unfold container_secrets.
      apply elem_of_app. right. apply list_elem_of_bind.
      exists e. split; [|done]. unfold env_secrets. rewrite Hvf, Hcm.
      apply elem_of_opt_name. eauto.
    + right; right. eauto.
Qed.

(** * More on the reverse indices *)

Lemma newNodes_list_idem oldNodes node :
  newNodes_list (newNodes_list oldNodes node) node = newNodes_list oldNodes node.
Proof.
  unfold newNodes_list at 1.
  by rewrite (proj2 (contains_elem_of _ _) (newNodes_list_elem oldNodes node)).
Qed.

Lemma newNodes_list_present oldNodes node :
  node ∈ oldNodes → newNodes_list oldNodes node = oldNodes.
Proof. intros H. unfold newNodes_list. by rewrite (proj2 (contains_elem_of _ _) H). Qed.

Lemma newNodes_list_absent oldNodes node :
  node ∉ oldNodes → newNodes_list oldNodes node = oldNodes ++ [node].
Proof.
  intros H. unfold newNodes_list. destruct (contains oldNodes node) eqn:E; [|done].
  by apply contains_elem_of in E.
Qed.

Lemma nodes_at_addNodes_view namespace node names m k :
  nodes_at (addNodes_view namespace node names m) k =
  if decide (k ∈ Sprintf namespace <$> names)
  then newNodes_list (nodes_at m k) node else nodes_at m k.
Proof.
  unfold addNodes_view. revert m.
  induction names as [|name names IH]; intros m; simpl.
  - done.
  - rewrite IH, !nodes_at_addNode_view. clear IH.
    destruct (decide (k = Sprintf namespace name)) as [->|Hne].
    + rewrite (decide_True (P := _ ∈ _ :: _)) by (apply elem_of_cons; by left).
      destruct (decide _); [apply newNodes_list_idem | done].
    + destruct (decide (k ∈ Sprintf namespace <$> names)) as [Hin|Hin].
      * rewrite decide_True; [done | apply elem_of_cons; by right].
      * rewrite decide_False; [done|]. rewrite elem_of_cons. tauto.
Qed.

Section Index.
Variable growslice : nat → nat → nat.

Lemma nodes_at_AddOrUpdatePod st pod i k :
cache_ok st →
nodes_at (nodes_view (exec (AddOrUpdatePod growslice pod) st) i) k =
if decide (k ∈ pod_keys i pod)
then newNodes_list (nodes_at (nodes_view st i) k) (v1.NodeName (v1.Spec pod))
else nodes_at (nodes_view st i) k.
Proof.
intros Hok.
destruct (AddOrUpdatePod_spec growslice st pod Hok) as (_ & Hc & Hs & _).
destruct i; [rewrite Hc | rewrite Hs]; apply nodes_at_addNodes_view.
Qed.

Lemma range_AddOrUpdatePod_ok pods st :
Inv st → Inv (exec (range pods (AddOrUpdatePod growslice)) st).
Proof.
intros HI. rewrite range_AddOrUpdatePod_perform. by apply range_perform_Inv.
Qed.

(** X5.  After any sequence of calls, one [AddOrUpdatePod] changes the list
    of a key of an index only if the pod references the key (in the pod's
    namespace); there it adds the pod's node at the end unless the list has
    it. *)
Theorem AddOrUpdatePod_effect calls h pod i namespace name :
let st := after growslice calls h in
let st' := exec (AddOrUpdatePod growslice pod) st in
let old := elems (h_strings (heap st)) (eval (nodesOf (index_field i) namespace name) st) in
elems (h_strings (heap st')) (eval (nodesOf (index_field i) namespace name) st') =
if decide (Sprintf namespace name ∈ pod_keys i pod)
then (if decide (v1.NodeName (v1.Spec pod) ∈ old) then old
      else old ++ [v1.NodeName (v1.Spec pod)])
else old.
Proof.
intros st st' old. unfold old, st'. rewrite !elems_nodesOf.
rewrite nodes_at_AddOrUpdatePod by apply after_Inv.
destruct (decide (_ ∈ pod_keys i pod)); [|done].
destruct (decide (_ ∈ nodes_at _ _)).
- by apply newNodes_list_present.
- by apply newNodes_list_absent.
Qed.

Lemma addNode_present st i pod name :
cache_ok st →
v1.NodeName (v1.Spec pod)
∈ nodes_at (nodes_view st i) (Sprintf (v1.Namespace (v1.pod_ObjectMeta pod)) name) →
exec (addNode growslice (index_field i) pod name) st = st.
Proof.
intros Hok Hin. unfold nodes_at, nodes_view in Hin. rewrite lookup_fmap in Hin.
unfold exec, addNode, storeNodes, Load, mbind, M_bind, mret, M_ret. simpl.
change (f_get (index_field i) (lc st)) with (table i (lc st)).
destruct (table i (lc st) !! _) as [v|] eqn:Hv; simpl in Hin;
  [|by apply elem_of_nil in Hin].
destruct (ok_strings st Hok _ _ _ Hv) as [s ->]. simpl in *.
unfold newNodes, get_heap, Store, mbind, M_bind, mret, M_ret. simpl.
rewrite (proj2 (contains_elem_of _ _) Hin). simpl.
change (f_get (index_field i) (lc st)) with (table i (lc st)).
rewrite (insert_id _ _ _ Hv).
destruct st as [hp [E c s' e]]. by destruct i.
Qed.

Lemma range_addNode_present st i pod names :
cache_ok st →
(∀ name, name ∈ names →
   v1.NodeName (v1.Spec pod)
   ∈ nodes_at (nodes_view st i) (Sprintf (v1.Namespace (v1.pod_ObjectMeta pod)) name)) →
exec (range names (addNode growslice (index_field i) pod)) st = st.
Proof.
intros Hok. induction names as [|name names IH]; intros Hall; [done|].
rewrite exec_range_cons, addNode_present; [|done|].
- apply IH. intros n Hn. apply Hall, elem_of_cons. by right.
- apply Hall, elem_of_cons. by left.
Qed.

Lemma AddOrUpdatePod_present st pod :
cache_ok st →
(∀ i k, k ∈ pod_keys i pod →
   v1.NodeName (v1.Spec pod) ∈ nodes_at (nodes_view st i) k) →
exec (AddOrUpdatePod growslice pod) st = st.
Proof.
intros Hok Hall. unfold AddOrUpdatePod.
pose proof (Hall ConfigMapIndex) as Hc. pose proof (Hall SecretIndex) as Hs.
unfold pod_keys, pod_names in Hc, Hs.
destruct (PodConfigMapsAndSecrets pod) as [configMaps secrets]. simpl in *.
rewrite exec_bind.
rewrite (range_addNode_present st ConfigMapIndex) by
  (try done; intros name Hn; apply Hc, list_elem_of_fmap; eauto).
apply (range_addNode_present st SecretIndex); [done|].
intros name Hn. apply Hs, list_elem_of_fmap. eauto.
Qed.

(** X6.  Calling [AddOrUpdatePod] a second time for the same pod leaves the
    whole state, heap and cache, as the first call left it. *)
Theorem AddOrUpdatePod_idempotent calls h pod :
let st := exec (AddOrUpdatePod growslice pod) (after growslice calls h) in
exec (AddOrUpdatePod growslice pod) st = st.
Proof.
intros st. pose proof (after_Inv growslice calls h) as [Hok0 _].
destruct (AddOrUpdatePod_spec growslice _ pod Hok0) as (Hok & _).
apply AddOrUpdatePod_present; [done|].
intros i k Hk. unfold st. rewrite nodes_at_AddOrUpdatePod by done.
rewrite decide_True by done. apply newNodes_list_elem.
Qed.

Lemma elem_of_range_AddOrUpdatePod pods st i k x :
Inv st →
x ∈ nodes_at (nodes_view (exec (range pods (AddOrUpdatePod growslice)) st) i) k ↔
x ∈ nodes_at (nodes_view st i) k
∨ ∃ pod, pod ∈ pods ∧ v1.NodeName (v1.Spec pod) = x ∧ k ∈ pod_keys i pod.
Proof.
revert st. induction pods as [|pod pods IH]; intros st HI.
- change (exec (range [] _) st) with st. split; [by left|].
  intros [?|(pod & []%elem_of_nil & _)]. done.
- rewrite exec_range_cons.
  rewrite IH by (by apply (perform_Inv growslice (CallAddOrUpdatePod pod))).
  rewrite nodes_at_AddOrUpdatePod by apply HI.
  split.
  + intros [Hx|(p & Hp & Hn & Hk)].
    * destruct (decide (k ∈ pod_keys i pod)) as [Hk|]; [|by left].
      apply newNodes_list_elem_inv in Hx as [?| ->]; [by left|].
      right. exists pod. split; [apply elem_of_cons; by left | done].
    * right. exists p. split; [apply elem_of_cons; by right | done].
  + intros [Hx|(p & [->|Hp]%elem_of_cons & Hn & Hk)].
    * left. destruct (decide _); [by apply newNodes_list_mono | done].
    * left. rewrite decide_True by done. rewrite <- Hn. apply newNodes_list_elem.
    * right. eauto.
Qed.

(** X7.  After a run of [AddOrUpdatePod] calls a node is in the list of a
    key exactly when it was there before or it is the node of one of the
    pods that reference the key; so the set of nodes does not depend on the
    order of the calls, and no node is made up. *)
Theorem nodes_after_pods calls h pods i namespace name x :
let st := after growslice calls h in
let st' := exec (range pods (AddOrUpdatePod growslice)) st in
x ∈ elems (h_strings (heap st')) (eval (nodesOf (index_field i) namespace name) st') ↔
x ∈ elems (h_strings (heap st)) (eval (nodesOf (index_field i) namespace name) st)
∨ ∃ pod, pod ∈ pods ∧ v1.NodeName (v1.Spec pod) = x
         ∧ Sprintf namespace name ∈ pod_keys i pod.
Proof.
intros st st'. unfold st'. rewrite !elems_nodesOf.
apply elem_of_range_AddOrUpdatePod, after_Inv.
Qed.

Lemma nodes_at_range_fresh pods st i k :
Inv st →
(∀ pod, pod ∈ pods → k ∈ pod_keys i pod) →
NoDup (nodes_at (nodes_view st i) k ++ (v1.NodeName ∘ v1.Spec <$> pods)) →
nodes_at (nodes_view (exec (range pods (AddOrUpdatePod growslice)) st) i) k
= nodes_at (nodes_view st i) k ++ (v1.NodeName ∘ v1.Spec <$> pods).
Proof.
revert st. induction pods as [|pod pods IH]; intros st HI Hall Hnd.
- change (exec (range [] _) st) with st. by rewrite app_nil_r.
- rewrite exec_range_cons. rewrite fmap_cons in *.
  assert (nodes_at (nodes_view (exec (AddOrUpdatePod growslice pod) st) i) k
          = nodes_at (nodes_view st i) k ++ [v1.NodeName (v1.Spec pod)]) as E.
  { rewrite nodes_at_AddOrUpdatePod by apply HI.
    rewrite decide_True by (apply Hall, elem_of_cons; by left).
    apply newNodes_list_absent. apply NoDup_app in Hnd as (_ & Hd & _).
    intros Hin. apply (Hd _ Hin), elem_of_cons. by left. }
  rewrite IH, E.
  + by rewrite <- app_assoc.
  + by apply (perform_Inv growslice (CallAddOrUpdatePod pod)).
  + intros p Hp. apply Hall, elem_of_cons. by right.
  + rewrite E, <- app_assoc. done.
Qed.

(** X8.  When the pods all reference a key and their nodes are distinct and
    not yet in its list, the list after the calls is the old list followed
    by the nodes of the pods in the order of the calls. *)
Theorem nodes_in_call_order calls h pods i namespace name :
let st := after growslice calls h in
let st' := exec (range pods (AddOrUpdatePod growslice)) st in
let old := elems (h_strings (heap st)) (eval (nodesOf (index_field i) namespace name) st) in
(∀ pod, pod ∈ pods → Sprintf namespace name ∈ pod_keys i pod) →
NoDup (old ++ (v1.NodeName ∘ v1.Spec <$> pods)) →
elems (h_strings (heap st')) (eval (nodesOf (index_field i) namespace name) st')
= old ++ (v1.NodeName ∘ v1.Spec <$> pods).
Proof.
intros st st' old. unfold old, st'. rewrite !elems_nodesOf.
intros Hall Hnd. apply nodes_at_range_fresh; [apply after_Inv | done | done].
Qed.

(** X9.  After the key is deleted, [AddOrUpdatePod] for a pod that
    references it leaves a list with the pod's node only: nothing of the
    deleted list comes back. *)
Theorem list_restarts_after_delete calls h pod i namespace name :
let st := exec (Delete (index_field i) (Sprintf namespace name))
            (after growslice calls h) in
let st' := exec (AddOrUpdatePod growslice pod) st in
Sprintf namespace name ∈ pod_keys i pod →
elems (h_strings (heap st')) (eval (nodesOf (index_field i) namespace name) st')
= [v1.NodeName (v1.Spec pod)].
Proof.
intros st st' Hk. unfold st'. rewrite elems_nodesOf.
destruct (after_Inv growslice calls h) as [Hok _].
destruct (Delete_index_spec (after growslice calls h) i (Sprintf namespace name))
  as (Hok' & Hv & _).
rewrite nodes_at_AddOrUpdatePod by (by apply Hok').
rewrite decide_True by done.
unfold st. unfold nodes_at at 1. rewrite Hv, decide_True by done.
by rewrite lookup_delete_eq.
Qed.

(** X10.  After any sequence of calls, calling [AddOrUpdatePod] any number of
    times for a pod that uses secret [s] leaves the pod's node exactly once
    in the list [SecretNodes] returns for [s]. *)
Theorem secret_node_exactly_once calls h pod s n :
s ∈ (PodConfigMapsAndSecrets pod).2 →
let st' := exec (range (replicate (S n) pod) (AddOrUpdatePod growslice))
             (after growslice calls h) in
occurrences (v1.NodeName (v1.Spec pod))
  (elems (h_strings (heap st'))
     (eval (SecretNodes (v1.Namespace (v1.pod_ObjectMeta pod)) s) st')) = 1.
Proof.
intros Hs st'. unfold st', SecretNodes.
rewrite (elems_nodesOf _ SecretIndex).
destruct (range_AddOrUpdatePod_ok (replicate (S n) pod) _ (after_Inv growslice calls h))
  as [_ Hnd].
apply occurrences_NoDup.
- unfold nodes_at. destruct (_ !! _) eqn:E; simpl; [|apply NoDup_nil_2].
  by eapply (Hnd SecretIndex).
- apply elem_of_range_AddOrUpdatePod; [apply after_Inv|].
  right. exists pod. split; [apply elem_of_cons; by left|]. split; [done|].
  unfold pod_keys, pod_names. apply list_elem_of_fmap. eauto.
Qed.

End Index.

Section NewNodes.
Variable growslice : nat → nat → nat.

(** X4.  On a well-formed slice [newNodes] leaves the cache's maps alone and
    returns a well-formed slice; the slice it was given still has the
    elements it had; when the node is among them the result is that very
    slice and nothing is written, otherwise the result has the old elements
    followed by the node. *)
Theorem newNodes_spec st oldNodes node :
slice_wf (h_strings (heap st)) oldNodes →
let old := elems (h_strings (heap st)) oldNodes in
let result := newNodes growslice oldNodes node st in
lc result.2 = lc st
∧ slice_wf (h_strings (heap result.2)) result.1
∧ elems (h_strings (heap result.2)) oldNodes = old
∧ (node ∈ old → result = (oldNodes, st))
∧ (node ∉ old → elems (h_strings (heap result.2)) result.1 = old ++ [node]).
Proof.
intros Hwf old result. unfold result, newNodes, get_heap, mbind, M_bind, mret, M_ret.
simpl. fold old.
destruct (contains old node) eqn:Hc.
{ simpl. split; [done|]. split; [done|]. split; [done|]. split; [done|].
  intros Hn. by apply contains_elem_of in Hc. }
assert (node ∉ old) as Hnot.
{ intros Hin%contains_elem_of. congruence. }
assert (∀ h : gmap loc (list string), fresh (dom h) ∉ dom h) as Hfresh
  by (intros h0; apply is_fresh).
unfold append. unfold slice_wf in Hwf. unfold old, elems in *.
destruct (s_ptr oldNodes) as [l|] eqn:Hp.
- destruct Hwf as (Hle & a & Ha & Hcap).
  unfold lookup_total, map_lookup_total in *. rewrite Ha in *. simpl in *.
  destruct (decide (s_len oldNodes < s_cap oldNodes)) as [Hroom|Hfull].
  + unfold get_heap, put_heap, mbind, M_bind, mret, M_ret. simpl.
    unfold slice_wf, elems. simpl. unfold lookup_total, map_lookup_total.
    rewrite Ha, !lookup_insert_eq. simpl.
    split; [done|]. split.
    { split; [lia|]. eexists. split; [done|]. by rewrite length_insert. }
    split; [by apply take_insert_ge|]. split; [done|]. intros _.
    rewrite (take_S_r _ _ node).
    * by rewrite take_insert_ge by lia.
    * apply list_lookup_insert_eq. lia.
  + unfold grow, get_heap, alloc_strings, mbind, M_bind, mret, M_ret. simpl.
    unfold slice_wf, elems. simpl. unfold lookup_total, map_lookup_total.
    rewrite Hp, !lookup_insert_eq. simpl. rewrite Ha. simpl.
    assert (fresh (dom (h_strings (heap st))) ≠ l) as Hne.
    { intros E. apply (Hfresh (h_strings (heap st))). rewrite E.
      apply elem_of_dom. eauto. }
    rewrite lookup_insert_ne, Ha by done. simpl.
    split; [done|]. split.
    { split; [lia|]. eexists. split; [done|].
      rewrite length_app, length_take. simpl. rewrite length_replicate. lia. }
    split; [done|]. split; [done|]. intros _.
    rewrite take_app, length_take, take_ge by (rewrite length_take; lia).
    by replace (S (s_len oldNodes) - s_len oldNodes `min` length a) with 1 by lia.
- destruct Hwf as [Hl Hcap0].
  unfold grow, get_heap, alloc_strings, mbind, M_bind, mret, M_ret. simpl.
  unfold slice_wf, elems. simpl. unfold lookup_total, map_lookup_total.
  rewrite Hp, !lookup_insert_eq, Hl. simpl.
  split; [done|]. split.
  { split; [lia|]. eexists. split; [done|]. simpl. rewrite length_replicate. lia. }
  done.
Qed.
End NewNodes.

(** [Delete] of a key of an index leaves the other keys, the other index,
    the heap, the edge nodes and the endpoints. *)
Lemma Delete_index_frame st i key :
  let st' := exec (Delete (index_field i) key) st in
  (∀ j namespace name,
     ¬ (j = i ∧ Sprintf namespace name = key) →
     eval (nodesOf (index_field j) namespace name) st'
     = eval (nodesOf (index_field j) namespace name) st)
  ∧ heap st' = heap st
  ∧ EdgeNodes (lc st') = EdgeNodes (lc st)
  ∧ endpoints (lc st') = endpoints (lc st).
Proof.
  cbv zeta. unfold exec, Delete. simpl.
  split; [|by rewrite EdgeNodes_f_set, endpoints_f_set].
  intros j namespace name Hne.
  unfold eval, nodesOf, Load, mbind, M_bind, mret, M_ret. simpl.
  change (f_get (index_field j) ?c) with (table j c).
  rewrite table_f_set. destruct (decide (j = i)) as [->|]; [|done].
  change (f_get (index_field i) ?c) with (table i c).
  rewrite lookup_delete_ne; [done|]. intros E. by apply Hne.
Qed.

(** X11.  [DeleteConfigMap] changes what [ConfigMapNodes] returns for no
    other key, and leaves [SecretNodes], the heap, the edge nodes and the
    endpoints as they are; the same for [DeleteSecret] with the two indices
    exchanged. *)
Theorem delete_leaves_the_other_keys st namespace name :
  (let st' := exec (DeleteConfigMap namespace name) st in
   (∀ ns' name', Sprintf ns' name' ≠ Sprintf namespace name →
      eval (ConfigMapNodes ns' name') st' = eval (ConfigMapNodes ns' name') st)
   ∧ (∀ ns' name', eval (SecretNodes ns' name') st' = eval (SecretNodes ns' name') st)
   ∧ heap st' = heap st ∧ EdgeNodes (lc st') = EdgeNodes (lc st)
   ∧ endpoints (lc st') = endpoints (lc st))
  ∧ (let st' := exec (DeleteSecret namespace name) st in
     (∀ ns' name', Sprintf ns' name' ≠ Sprintf namespace name →
        eval (SecretNodes ns' name') st' = eval (SecretNodes ns' name') st)
     ∧ (∀ ns' name', eval (ConfigMapNodes ns' name') st' = eval (ConfigMapNodes ns' name') st)
     ∧ heap st' = heap st ∧ EdgeNodes (lc st') = EdgeNodes (lc st)
     ∧ endpoints (lc st') = endpoints (lc st)).
Proof.
  split; cbv zeta.
  - destruct (Delete_index_frame st ConfigMapIndex (Sprintf namespace name))
      as (Hk & Hh & HE & He).
    split; [|split; [|done]].
    + intros ns' name' Hne. apply (Hk ConfigMapIndex). by intros [_ ?].
    + intros ns' name'. apply (Hk SecretIndex). by intros [? _].
  - destruct (Delete_index_frame st SecretIndex (Sprintf namespace name))
      as (Hk & Hh & HE & He).
    split; [|split; [|done]].
    + intros ns' name' Hne. apply (Hk SecretIndex). by intros [_ ?].
    + intros ns' name'. apply (Hk ConfigMapIndex). by intros [? _].
Qed.

(** * More on the edge nodes and the keys *)

Section Trace.
Variable growslice : nat → nat → nat.

Lemma IsEdgeNode_range calls st nodeName :
Inv st →
eval (IsEdgeNode nodeName) (exec (range calls (perform growslice)) st)
= foldl (edge_step nodeName) (eval (IsEdgeNode nodeName) st) calls.
Proof.
revert st. induction calls as [|c calls IH]; intros st HI; [done|].
rewrite exec_range_cons, IH by (by apply perform_Inv). simpl. f_equal.
unfold eval, IsEdgeNode, Load, mbind, M_bind, mret, M_ret. simpl.
rewrite perform_EdgeNodes by apply HI.
destruct c as [| | |n|n| |]; simpl; try done.
- destruct (decide (n = nodeName)) as [->|].
  + by rewrite lookup_insert_eq.
  + by rewrite lookup_insert_ne.
- destruct (decide (n = nodeName)) as [->|].
  + by rewrite lookup_delete_eq.
  + by rewrite lookup_delete_ne.
Qed.

(** X12.  After a sequence of calls on a cache created empty, [IsEdgeNode n]
    is what the last [UpdateEdgeNode n] or [DeleteNode n] of the sequence
    says: true after an update, false after a delete or when there is
    neither; calls for other names and other methods do not matter. *)
Theorem IsEdgeNode_after_calls calls h nodeName :
eval (IsEdgeNode nodeName) (after growslice calls h) = edge_after nodeName calls.
Proof.
unfold after, edge_after.
rewrite IsEdgeNode_range by apply Inv_initial.
reflexivity.
Qed.

(** X13.  [AddOrUpdatePod] leaves the edge nodes, the endpoints map, what
    [GetAllEndpoints] returns, and the label, annotation and subset stores
    of the heap as they are. *)
Theorem AddOrUpdatePod_leaves_the_rest calls h pod :
let st := after growslice calls h in
let st' := exec (AddOrUpdatePod growslice pod) st in
(∀ nodeName, eval (IsEdgeNode nodeName) st' = eval (IsEdgeNode nodeName) st)
∧ endpoints (lc st') = endpoints (lc st)
∧ eval GetAllEndpoints st' = eval GetAllEndpoints st
∧ h_maps (heap st') = h_maps (heap st)
∧ h_subsets (heap st') = h_subsets (heap st).
Proof.
intros st st'. destruct (after_Inv growslice calls h) as [Hok _].
destruct (AddOrUpdatePod_spec growslice _ pod Hok) as (_ & _ & _ & [HE He Hm Hs _ _]).
fold st st' in HE, He, Hm, Hs.
split; [|split; [done|split; [|done]]].
- intros n. unfold eval, IsEdgeNode, Load, mbind, M_bind, mret, M_ret. simpl.
  by rewrite HE.
- unfold eval, GetAllEndpoints. simpl. by rewrite He.
Qed.
End Trace.

Lemma slash_is_the_separator namespace name :
  Sprintf namespace name = namespace +:+ String slash name.
Proof. reflexivity. Qed.

Lemma Sprintf_cons c namespace name :
  Sprintf (String c namespace) name = String c (Sprintf namespace name).
Proof. reflexivity. Qed.

Lemma Sprintf_nil name : Sprintf "" name = String slash name.
Proof. reflexivity. Qed.

(** X14.  When the two namespaces have no slash, equal keys come from equal
    namespaces and equal names. *)
Theorem Sprintf_inj ns1 name1 ns2 name2 :
  no_slash ns1 = true → no_slash ns2 = true →
  Sprintf ns1 name1 = Sprintf ns2 name2 → ns1 = ns2 ∧ name1 = name2.
Proof.
  revert ns2. induction ns1 as [|c1 ns1 IH]; intros [|c2 ns2] H1 H2 Heq.
  - rewrite !Sprintf_nil in Heq. by injection Heq as ->.
  - rewrite Sprintf_cons, Sprintf_nil in Heq.
    injection Heq as <- _. simpl in H2. done.
  - rewrite Sprintf_cons, Sprintf_nil in Heq.
    injection Heq as -> _. simpl in H1. done.
  - rewrite !Sprintf_cons in Heq. injection Heq as -> Heq.
    simpl in H1, H2. destruct (Ascii.eqb c2 slash); [done|].
    destruct (IH ns2 H1 H2 Heq) as [-> ->]. done.
Qed.

(** * More on the endpoints *)

Lemma DeepEqual_slice_refl {A} `{EqDecision A} (arrs : gmap loc (list A)) x :
  DeepEqual_slice arrs x x = true.
Proof. unfold DeepEqual_slice. by rewrite !bool_decide_eq_true_2. Qed.

Lemma DeepEqual_map_refl h x : DeepEqual_map h x x = true.
Proof.
  unfold DeepEqual_map. destruct x; [|done]. by rewrite !bool_decide_eq_true_2.
Qed.

Lemma DeepEqual_pointer_refl {A} `{EqDecision A} `{Inhabited A}
    (cells : gmap loc A) x :
  DeepEqual_pointer cells x x = true.
Proof.
  unfold DeepEqual_pointer. destruct x; [|done]. by rewrite bool_decide_eq_true_2.
Qed.

Lemma DeepEqual_ObjectMeta_refl h x : DeepEqual_ObjectMeta h x x = true.
Proof.
  unfold DeepEqual_ObjectMeta.
  rewrite !DeepEqual_slice_refl, !DeepEqual_map_refl, !DeepEqual_pointer_refl.
  by rewrite !bool_decide_eq_true_2.
Qed.

Lemma maskChurn_same m : maskChurn m m = m.
Proof. by destruct m. Qed.

(** X15.  Right after [AddOrUpdateEndpoints e], [IsEndpointsUpdated e] is
    false; right after [DeleteEndpoints e] it is true; and
    [IsEndpointsUpdated] leaves the state as it is. *)
Theorem stored_endpoints_round_trip st e :
  eval (IsEndpointsUpdated e) (exec (AddOrUpdateEndpoints e) st) = false
  ∧ eval (IsEndpointsUpdated e) (exec (DeleteEndpoints e) st) = true
  ∧ exec (IsEndpointsUpdated e) st = st.
Proof.
  split; [|split].
  - unfold eval, exec, IsEndpointsUpdated, AddOrUpdateEndpoints, Store, Load, get_heap,
      mbind, M_bind, mret, M_ret. simpl.
    rewrite lookup_insert_eq. simpl.
    by rewrite maskChurn_same, DeepEqual_ObjectMeta_refl, DeepEqual_slice_refl.
  - unfold eval, exec, IsEndpointsUpdated, DeleteEndpoints, Delete, Load,
      mbind, M_bind, mret, M_ret. simpl.
    by rewrite lookup_delete_eq.
  - unfold exec, IsEndpointsUpdated, Load, get_heap, mbind, M_bind, mret, M_ret. simpl.
    by destruct (endpoints (lc st) !! endpointsKey e) as [[]|].
Qed.

Lemma DeepEqual_slice_sound {A} `{EqDecision A} (arrs : gmap loc (list A)) x y :
  DeepEqual_slice arrs x y = true → content_slice arrs x = content_slice arrs y.
Proof.
  unfold DeepEqual_slice, content_slice, is_nil, elems.
  destruct (bool_decide_reflect (match s_ptr x with None => true | Some _ => false end
              = match s_ptr y with None => true | Some _ => false end)) as [Hn|];
    [|done]. simpl.
  destruct (bool_decide_reflect (s_len x = s_len y)) as [Hl|]; [|done]. simpl.
  destruct (bool_decide_reflect (s_ptr x = s_ptr y)) as [Hp|].
  - intros _. rewrite Hp, Hl. done.
  - intros He%bool_decide_eq_true.
    destruct (s_ptr x), (s_ptr y); try done. by rewrite He.
Qed.

Lemma DeepEqual_map_sound h x y :
  DeepEqual_map h x y = true → content_map h x = content_map h y.
Proof.
  unfold DeepEqual_map, content_map. destruct x as [a|], y as [b|]; try done. simpl.
  destruct (bool_decide_reflect (size (h_maps h !!! a) = size (h_maps h !!! b)))
    as [Hs|]; [|done]. simpl.
  destruct (bool_decide_reflect (a = b)) as [->|]; [done|].
  intros Hf%bool_decide_eq_true. f_equal.
  apply map_subseteq_size_eq; [|lia].
  apply map_subseteq_spec. intros k v Hk. by apply Hf.
Qed.

Lemma DeepEqual_pointer_sound {A} `{EqDecision A} `{Inhabited A}
    (cells : gmap loc A) x y :
  DeepEqual_pointer cells x y = true →
  content_pointer cells x = content_pointer cells y.
Proof.
  unfold DeepEqual_pointer, content_pointer. destruct x as [a|], y as [b|]; try done.
  simpl. destruct (bool_decide_reflect (a = b)) as [->|]; [done|].
  by intros ->%bool_decide_eq_true.
Qed.

(** X16.  When [IsEndpointsUpdated new] is false, the cache holds a snapshot
    under the key of [new] whose metadata, the resource version, generation
    and annotations apart, and whose subsets have the same value as those
    of [new]. *)
Theorem not_updated_only_churn st new :
  eval (IsEndpointsUpdated new) st = false →
  ∃ old,
    endpoints (lc st) !! endpointsKey new = Some (AnyEndpoints old)
    ∧ content_ObjectMeta (heap st) (withoutChurn (v1.ObjectMeta_ old))
      = content_ObjectMeta (heap st) (withoutChurn (v1.ObjectMeta_ new))
    ∧ content_slice (h_subsets (heap st)) (v1.Subsets old)
      = content_slice (h_subsets (heap st)) (v1.Subsets new).
Proof.
  unfold eval, IsEndpointsUpdated, Load, get_heap, mbind, M_bind, mret, M_ret. simpl.
  destruct (endpoints (lc st) !! endpointsKey new) as [[| |old]|]; try done. simpl.
  intros H. apply orb_false_iff in H as [Hm Hs].
  apply negb_false_iff in Hm, Hs.
  exists old. split; [done|]. split; [|by apply DeepEqual_slice_sound].
  unfold DeepEqual_ObjectMeta, maskChurn in Hm. simpl in Hm.
  repeat (apply andb_true_iff in Hm as [Hm ?]).
  repeat match goal with
         | H : bool_decide _ = true |- _ => apply bool_decide_eq_true in H
         | H : DeepEqual_pointer _ _ _ = true |- _ => apply DeepEqual_pointer_sound in H
         | H : DeepEqual_map _ _ _ = true |- _ => apply DeepEqual_map_sound in H
         | H : DeepEqual_slice _ _ _ = true |- _ => apply DeepEqual_slice_sound in H
         end.
  unfold content_ObjectMeta, withoutChurn. simpl. congruence.
Qed.

Section AllEndpoints.
Variable growslice : nat → nat → nat.

Lemma perform_endpoints_ok c st : Inv st → endpoints_ok st →
endpoints_ok (exec (perform growslice c) st).
Proof.
intros [Hok _] He. destruct c as [pod| | | | |e|e]; try done.
- destruct (AddOrUpdatePod_spec growslice st pod Hok)
    as (_ & _ & _ & [_ Hsame _ _ _ _]).
  intros key v.
  change (exec (perform growslice (CallAddOrUpdatePod pod)) st)
    with (exec (AddOrUpdatePod growslice pod) st).
  rewrite Hsame. apply He.
- intros key v. unfold exec, perform, AddOrUpdateEndpoints, Store. simpl.
  destruct (decide (key = endpointsKey e)) as [->|].
  + rewrite lookup_insert_eq. intros [= <-]. eauto.
  + rewrite lookup_insert_ne by done. apply He.
- intros key v. unfold exec, perform, DeleteEndpoints, Delete. simpl.
  intros [_ ?]%lookup_delete_Some. by apply He.
Qed.

Lemma after_endpoints_ok calls h : endpoints_ok (after growslice calls h).
Proof.
unfold after.
assert (Inv (initial h) ∧ endpoints_ok (initial h)) as H.
{ split; [apply Inv_initial|]. intros key v. unfold initial. simpl.
  by rewrite lookup_empty. }
revert H. generalize (initial h).
induction calls as [|c calls IH]; intros st [HI He]; [done|].
rewrite exec_range_cons. apply IH. split.
- by apply perform_Inv.
- by apply perform_endpoints_ok.
Qed.

(** X17.  After any sequence of calls [GetAllEndpoints] leaves the state as
    it is and returns exactly the objects stored under their own key, one
    for each key of the endpoints map and no two with the same key. *)
Theorem GetAllEndpoints_after_calls calls h :
let st := after growslice calls h in
let all := eval GetAllEndpoints st in
exec GetAllEndpoints st = st
∧ (∀ e, e ∈ all ↔ endpoints (lc st) !! endpointsKey e = Some (AnyEndpoints e))
∧ NoDup (endpointsKey <$> all)
∧ length all = size (endpoints (lc st)).
Proof.
intros st all. pose proof (after_endpoints_ok calls h) as He. fold st in He.
split; [done|].
unfold all, eval, GetAllEndpoints. simpl.
set (f := λ kv : string * any,
            match kv.2 with AnyEndpoints eps => Some eps | _ => None end).
assert (Forall (λ kv, ∃ e, kv = (endpointsKey e, AnyEndpoints e))
          (map_to_list (endpoints (lc st)))) as Hall.
{ apply Forall_forall. intros [k v] Hkv%elem_of_map_to_list.
  destruct (He k v Hkv) as (e & -> & ->). eauto. }
assert (∀ l, Forall (λ kv, ∃ e, kv = (endpointsKey e, AnyEndpoints e)) l →
          endpointsKey <$> omap f l = l.*1 ∧ length (omap f l) = length l) as Hl.
{ induction 1 as [|kv l (e & ->) _ [IH1 IH2]]; [done|].
  change (omap f ((endpointsKey e, AnyEndpoints e) :: l)) with (e :: omap f l).
  rewrite !fmap_cons, IH1. simpl. by rewrite IH2. }
destruct (Hl _ Hall) as [Hk Hlen].
split; [|split].
- intros e. rewrite list_elem_of_omap. split.
  + intros ([k v] & Hkv%elem_of_map_to_list & Hf). unfold f in Hf. simpl in Hf.
    destruct (He k v Hkv) as (e' & -> & ->). by injection Hf as ->.
  + intros Hst. exists (endpointsKey e, AnyEndpoints e).
    split; [by apply elem_of_map_to_list | done].
- rewrite Hk. apply NoDup_fst_map_to_list.
- rewrite Hlen. apply length_map_to_list.
Qed.
End AllEndpoints.

(** * The theorems at concrete inputs *)

Lemma node_lists_have_no_duplicates_witness :
  "cfg1" ∈ (PodConfigMapsAndSecrets five_reference_pod).1
  ∧ occurrences "node1"
      (elems (h_strings (heap (exec (range (replicate 2 five_reference_pod)
                                       (AddOrUpdatePod double))
                                 (after double [] empty_heap))))
         (eval (ConfigMapNodes "ns" "cfg1")
            (exec (range (replicate 2 five_reference_pod) (AddOrUpdatePod double))
               (after double [] empty_heap)))) = 1.
Proof.
  assert ("cfg1" ∈ (PodConfigMapsAndSecrets five_reference_pod).1) as Hc
    by (apply elem_of_cons; by left).
  split; [exact Hc|].
  exact (proj1 (node_lists_have_no_duplicates double) [] empty_heap
           five_reference_pod "cfg1" 1 Hc).
Defined.

Lemma churn_is_no_update_witness :
  eval (IsEndpointsUpdated churned_endpoints) stored_state = false.
Proof.
  apply (churn_is_no_update stored_state labelled_endpoints churned_endpoints).
  - vm_compute. reflexivity.
  - repeat split.
  - repeat split.
  - vm_compute. reflexivity.
  - vm_compute. reflexivity.
Defined.

Lemma sequential_inserts_are_kept_witness :
  "node1" ∈
    elems (h_strings (heap (run_schedule double
                              (sequential 0 [config_pod "node1"; config_pod "node2"])
                              (start <$> [config_pod "node1"; config_pod "node2"])
                              (after double [] empty_heap)).2))
      (eval (ConfigMapNodes "ns" "cfg")
         (run_schedule double
            (sequential 0 [config_pod "node1"; config_pod "node2"])
            (start <$> [config_pod "node1"; config_pod "node2"])
            (after double [] empty_heap)).2).
Proof.
  refine (proj2 (proj2 (sequential_inserts_are_kept double [] empty_heap
            [config_pod "node1"; config_pod "node2"] "ns" "cfg" _))
            (config_pod "node1") _).
  - intros pod [->| ->%list_elem_of_singleton]%elem_of_cons;
      (split; [reflexivity | apply elem_of_cons; by left]).
  - apply elem_of_cons. by left.
Defined.

Lemma unknown_endpoints_are_updated_witness :
  snapshot (initial empty_heap) (endpointsKey labelled_endpoints) = None
  ∧ eval (IsEndpointsUpdated labelled_endpoints) (initial empty_heap) = true.
Proof.
  split; [reflexivity|].
  apply unknown_endpoints_are_updated. reflexivity.
Defined.

Lemma edge_node_membership_witness :
  eval (IsEdgeNode "edge2")
    (after double [CallUpdateEdgeNode "edge1"; CallDeleteNode "edge1"] empty_heap)
  = false.
Proof.
  apply (proj1 (edge_node_membership double "edge2")).
  intros [[=]|[[=]|[]%elem_of_nil]%elem_of_cons]%elem_of_cons.
Defined.


Lemma stored_snapshot_is_a_shallow_copy_witness :
  ∃ e' st2,
    mutate (PutLabel "app" "db") labelled_endpoints stored_state = Some (e', st2)
    ∧ snapshot st2 (endpointsKey labelled_endpoints)
      = Some (content_Endpoints (heap st2) labelled_endpoints).
Proof.
  eexists _, _. split.
  - vm_compute. reflexivity.
  - apply (stored_snapshot_is_a_shallow_copy (initial labelled_heap)
             labelled_endpoints (PutLabel "app" "db") labelled_endpoints).
    vm_compute. reflexivity.
Defined.

Lemma newNodes_spec_witness :
  elems (h_strings (heap (newNodes double (eval (ConfigMapNodes "ns" "cfg1") alias_state)
                            "node2" alias_state).2))
    (newNodes double (eval (ConfigMapNodes "ns" "cfg1") alias_state) "node2" alias_state).1
  = ["node1"; "node2"].
Proof.
  assert (slice_wf (h_strings (heap alias_state))
            (eval (ConfigMapNodes "ns" "cfg1") alias_state)) as Hwf.
  { vm_compute. split; [lia|]. eexists. split; reflexivity. }
  pose proof (proj2 (proj2 (proj2 (proj2
    (newNodes_spec double alias_state _ "node2" Hwf))))) as H.
  rewrite H.
  - vm_compute. reflexivity.
  - vm_compute. intros [=]%list_elem_of_singleton.
Defined.

Lemma nodes_in_call_order_witness :
  elems (h_strings (heap (exec (range [config_pod "node1"; config_pod "node2"]
                                  (AddOrUpdatePod double))
                            (after double [] empty_heap))))
    (eval (nodesOf (index_field ConfigMapIndex) "ns" "cfg")
       (exec (range [config_pod "node1"; config_pod "node2"] (AddOrUpdatePod double))
          (after double [] empty_heap)))
  = ["node1"; "node2"].
Proof.
  apply (nodes_in_call_order double [] empty_heap
           [config_pod "node1"; config_pod "node2"] ConfigMapIndex "ns" "cfg").
  - intros pod [->| ->%list_elem_of_singleton]%elem_of_cons;
      apply elem_of_cons; by left.
  - vm_compute. apply NoDup_cons. split.
    + intros [=]%list_elem_of_singleton.
    + apply NoDup_singleton.
Defined.

Lemma list_restarts_after_delete_witness :
  elems (h_strings (heap (exec (AddOrUpdatePod double (config_pod "node2"))
                            (exec (Delete (index_field ConfigMapIndex) (Sprintf "ns" "cfg"))
                               (after double [CallAddOrUpdatePod (config_pod "node1")]
                                  empty_heap)))))
    (eval (nodesOf (index_field ConfigMapIndex) "ns" "cfg")
       (exec (AddOrUpdatePod double (config_pod "node2"))
          (exec (Delete (index_field ConfigMapIndex) (Sprintf "ns" "cfg"))
             (after double [CallAddOrUpdatePod (config_pod "node1")] empty_heap))))
  = ["node2"].
Proof.
  apply (list_restarts_after_delete double [CallAddOrUpdatePod (config_pod "node1")]
           empty_heap (config_pod "node2") ConfigMapIndex "ns" "cfg").
  apply elem_of_cons. by left.
Defined.

Lemma secret_node_exactly_once_witness :
  occurrences "node1"
    (elems (h_strings (heap (exec (range (replicate 2 five_reference_pod)
                                     (AddOrUpdatePod double))
                               (after double [] empty_heap))))
       (eval (SecretNodes "ns" "sec3")
          (exec (range (replicate 2 five_reference_pod) (AddOrUpdatePod double))
             (after double [] empty_heap)))) = 1.
Proof.
  apply (secret_node_exactly_once double [] empty_heap five_reference_pod "sec3" 1).
  do 2 (apply elem_of_cons; right). apply elem_of_cons. by left.
Defined.

Lemma delete_leaves_the_other_keys_witness :
  eval (ConfigMapNodes "ns" "cfg2") (exec (DeleteConfigMap "ns" "cfg1") alias_state)
  = eval (ConfigMapNodes "ns" "cfg2") alias_state.
Proof.
  apply (proj1 (proj1 (delete_leaves_the_other_keys alias_state "ns" "cfg1"))).
  intros [=].
Defined.

Lemma Sprintf_inj_witness :
  no_slash "kube-system" = true
  ∧ ("kube-system" = "kube-system" ∧ "settings" = "settings").
Proof.
  split; [reflexivity|].
  apply (Sprintf_inj "kube-system" "settings" "kube-system" "settings");
    reflexivity.
Defined.

Lemma not_updated_only_churn_witness :
  ∃ old,
    endpoints (lc stored_state) !! endpointsKey churned_endpoints = Some (AnyEndpoints old)
    ∧ content_ObjectMeta (heap stored_state) (withoutChurn (v1.ObjectMeta_ old))
      = content_ObjectMeta (heap stored_state)
          (withoutChurn (v1.ObjectMeta_ churned_endpoints))
    ∧ content_slice (h_subsets (heap stored_state)) (v1.Subsets old)
      = content_slice (h_subsets (heap stored_state)) (v1.Subsets churned_endpoints).
Proof.
  apply (not_updated_only_churn stored_state churned_endpoints).
  vm_compute. reflexivity.
Defined.
